(** * TSMT$DataStats: descriptive statistics behind lazily validated caches

    A shallow embedding of [src/DataStats.ts].  The engine is a record of
    the private fields of the class; every accessor and method becomes a
    function from the engine state to its result and the state it leaves
    behind.  JavaScript numbers are IEEE-754 binary64 values, which are the
    primitive floats of Rocq, so the arithmetic of the model is the
    arithmetic of the program, bit for bit. *)

From Stdlib Require Import ZArith QArith Qabs Qround Floats Ascii Lia.
From stdpp Require Import base option list sorting strings pretty gmap.

(** Decimal literals denote the nearest binary64 value, as in JavaScript. *)
Set Warnings "-inexact-float".

(** ** The JavaScript runtime the class relies on *)

Module JS.

(** *** Numbers *)

Abbreviation number := float.

Definition MAX_VALUE : number := 0x1.fffffffffffffp+1023%float.
Definition MIN_VALUE : number := 0x1p-1074%float.

(** The number nearest to an integer (exact below 2^53). *)
Definition of_Z (z : Z) : number :=
  SF2Prim (binary_normalize prec emax z 0 false).

Definition of_nat (n : nat) : number := of_Z (Z.of_nat n).

Definition isNaN (x : number) : bool := PrimFloat.is_nan x.

(** [a < b] and [a > b]; both are false as soon as one side is NaN. *)
Definition lt (a b : number) : bool := PrimFloat.ltb a b.
Definition gt (a b : number) : bool := PrimFloat.ltb b a.

Definition Math_abs (x : number) : number := PrimFloat.abs x.
Definition Math_sqrt (x : number) : number := PrimFloat.sqrt x.

Definition Math_floor (x : number) : number :=
  match Prim2SF x with
  | S754_finite s m e =>
      if (0 <=? e)%Z then x
      else of_Z (Z.shiftr (if s then Z.neg m else Z.pos m) (- e))
  | _ => x
  end.

Definition Math_max (a b : number) : number :=
  if isNaN a || isNaN b then PrimFloat.nan
  else if lt a b then b
  else if lt b a then a
  else if PrimFloat.get_sign a then b else a.

Definition Math_min (a b : number) : number :=
  if isNaN a || isNaN b then PrimFloat.nan
  else if lt a b then a
  else if lt b a then b
  else if PrimFloat.get_sign a then a else b.

(** A value read from an array is a number or [undefined] ([None]);
    arithmetic turns [undefined] into NaN. *)
Abbreviation value := (option number).

Definition ToNumber (v : value) : number := default PrimFloat.nan v.

(** *** Number to string (radix 10)

    The digits are the shortest decimal that rounds back to the number;
    among several shortest ones the nearest to the number is taken. *)

Definition Qpow (b : Z) (e : Z) : Q := Qpower (inject_Z b) e.

(** The reals that round to the positive number [m * 2^e]: the bounds,
    and whether the bounds themselves are included (even mantissa). *)
Definition rounding_interval (m : positive) (e : Z) : Q * Q * bool :=
  let x := (inject_Z (Z.pos m) * Qpow 2 e)%Q in
  let above := Qpow 2 (e - 1) in
  let below :=
    if (Z.pos m =? 2 ^ 52)%Z && (-1074 <? e)%Z then Qpow 2 (e - 2) else above in
  ((x - below)%Q, (x + above)%Q, Z.even (Z.pos m)).

(** The multiple [s * 10^t] inside the interval that is nearest to [x]. *)
Definition decimal_at (lo hi x : Q) (closed : bool) (t : Z) : option Z :=
  let u := Qpow 10 t in
  let smin :=
    if closed then Qceiling (lo / u) else (Qfloor (lo / u) + 1)%Z in
  let smax :=
    if closed then Qfloor (hi / u) else (Qceiling (hi / u) - 1)%Z in
  if (smin <=? smax)%Z then
    let c := Qfloor (x / u + (1 # 2)) in
    let c :=
      if Qeq_bool (inject_Z c) (x / u + (1 # 2)) && Z.odd c
      then (c - 1)%Z else c in
    Some (Z.max smin (Z.min smax c))
  else None.

Definition num_digits (s : Z) : Z := Z.of_nat (String.length (pretty s)).

Definition Qdist (a b : Q) : Q := Qabs (a - b).

Fixpoint shortest_from (fuel : nat) (lo hi x : Q) (closed : bool) (t : Z)
  : Z * Z :=
  match fuel with
  | O => (0, 0)%Z
  | S fuel' =>
      match decimal_at lo hi x closed t with
      | Some s =>
          match decimal_at lo hi x closed (t - 1) with
          | Some s' =>
              if (num_digits s' =? num_digits s)%Z
                 && Qle_bool (Qdist (inject_Z s' * Qpow 10 (t - 1)) x)
                             (Qdist (inject_Z s * Qpow 10 t) x)
                 && negb (Qeq_bool (Qdist (inject_Z s' * Qpow 10 (t - 1)) x)
                                   (Qdist (inject_Z s * Qpow 10 t) x))
              then (s', t - 1)%Z else (s, t)
          | None => (s, t)
          end
      | None => shortest_from fuel' lo hi x closed (t - 1)
      end
  end.

(** A power of ten above [m * 2^e], from which the search descends. *)
Definition start_exponent (m : positive) (e : Z) : Z :=
  ((Z.log2 (Z.pos m) + e + 1) * 30103 / 100000 + 3)%Z.

(** Digits [s] and exponent [n] with [x = 0.s * 10^n]. *)
Definition shortest_decimal (m : positive) (e : Z) : Z * Z :=
  let '(lo, hi, closed) := rounding_interval m e in
  let x := (inject_Z (Z.pos m) * Qpow 2 e)%Q in
  let '(s, t) := shortest_from 64 lo hi x closed (start_exponent m e) in
  (s, (t + num_digits s)%Z).

Fixpoint zeros (n : nat) : string :=
  match n with O => "" | S n' => String "0"%char (zeros n') end.

Definition format_decimal (s n : Z) : string :=
  let ds := pretty s in
  let k := num_digits s in
  if (k <=? n)%Z && (n <=? 21)%Z then
    ds +:+ zeros (Z.to_nat (n - k))
  else if (0 <? n)%Z && (n <=? 21)%Z then
    String.substring 0 (Z.to_nat n) ds +:+ "." +:+
    String.substring (Z.to_nat n) (Z.to_nat (k - n)) ds
  else if (-6 <? n)%Z && (n <=? 0)%Z then
    "0." +:+ zeros (Z.to_nat (- n)) +:+ ds
  else
    let e := (n - 1)%Z in
    let ex := (if (0 <=? e)%Z then "e+" else "e-") +:+ pretty (Z.abs e) in
    if (k =? 1)%Z then ds +:+ ex
    else String.substring 0 1 ds +:+ "." +:+
         String.substring 1 (Z.to_nat (k - 1)) ds +:+ ex.

Definition Number_toString (x : number) : string :=
  match Prim2SF x with
  | S754_nan => "NaN"
  | S754_zero _ => "0"
  | S754_infinity s => if s then "-Infinity" else "Infinity"
  | S754_finite s m e =>
      let '(d, n) := shortest_decimal m e in
      (if s then "-" else "") +:+ format_decimal d n
  end.

(** *** parseInt (no radix argument) *)

Definition is_white_space (a : ascii) : bool :=
  let c := nat_of_ascii a in
  (c =? 32)%nat || ((9 <=? c)%nat && (c <=? 13)%nat).

Fixpoint trim_start (s : string) : string :=
  match s with
  | String a s' => if is_white_space a then trim_start s' else s
  | EmptyString => s
  end.

Definition digit_value (radix : Z) (a : ascii) : option Z :=
  let c := Z.of_nat (nat_of_ascii a) in
  let v :=
    if (48 <=? c)%Z && (c <=? 57)%Z then (c - 48)%Z
    else if (97 <=? c)%Z && (c <=? 122)%Z then (c - 87)%Z
    else if (65 <=? c)%Z && (c <=? 90)%Z then (c - 55)%Z
    else radix in
  if (v <? radix)%Z then Some v else None.

(** The integer written by the longest prefix of digits, if any. *)
Fixpoint leading_digits (radix : Z) (s : string) (acc : option Z)
  : option Z :=
  match s with
  | String a s' =>
      match digit_value radix a with
      | Some d => leading_digits radix s' (Some (default 0 acc * radix + d)%Z)
      | None => acc
      end
  | EmptyString => acc
  end.

Definition parseInt (str : string) : number :=
  let s := trim_start str in
  let '(negative, s) :=
    match s with
    | String "-"%char r => (true, r)
    | String "+"%char r => (false, r)
    | _ => (false, s)
    end in
  let '(radix, s) :=
    match s with
    | String "0"%char (String "x"%char r) => (16%Z, r)
    | String "0"%char (String "X"%char r) => (16%Z, r)
    | _ => (10%Z, s)
    end in
  match leading_digits radix s None with
  | None => PrimFloat.nan
  | Some z => if negative then PrimFloat.opp (of_Z z) else of_Z z
  end.

(** *** Property keys and arrays *)

(** A key is an array index when it is the canonical decimal form of an
    integer below 2^32 - 1. *)
Definition array_index (k : string) : option N :=
  z ← leading_digits 10 k None;
  let n := Z.to_N z in
  if bool_decide (pretty n = k) && (n <? 2 ^ 32 - 1)%N
  then Some n else None.

(** The array index a number denotes when it is used as a subscript. *)
Definition index_of (r : number) : option nat :=
  N.to_nat <$> array_index (Number_toString r).

Abbreviation array := (list number).

(** [a[i]] for a loop counter [i], and [a[r]] for a computed number [r]. *)
Definition elem (a : array) (i : nat) : value := a !! i.
Definition elem_at (a : array) (r : number) : value :=
  i ← index_of r; a !! i.

(** [a.slice(start, stop)] and [a.slice()]: a new array. *)
Definition slice (a : array) (start stop : nat) : array :=
  take (stop - start) (drop start a).
Definition slice_all (a : array) : array := slice a 0 (length a).

Definition push (a : array) (x : number) : array := a ++ [x].
Definition unshift (a : array) (x : number) : array := x :: a.

(** [a.sort(cmp)]: a stable sort; [x] goes before the first [y] for which
    [cmp(y, x) > 0] (a NaN from the comparator counts as 0). *)
Fixpoint sort_insert (cmp : number → number → number) (x : number)
  (sorted : array) : array :=
  match sorted with
  | [] => [x]
  | y :: rest =>
      if gt (cmp y x) 0%float then x :: y :: rest
      else y :: sort_insert cmp x rest
  end.

Definition sort (cmp : number → number → number) (a : array) : array :=
  foldl (λ sorted x, sort_insert cmp x sorted) [] a.

(** An array with holes: a slot never written reads as [undefined]. *)
Abbreviation sparse := (list value).

Definition sparse_get (f : sparse) (i : nat) : value := mjoin (f !! i).
Definition sparse_get_at (f : sparse) (r : number) : value :=
  i ← index_of r; sparse_get f i.

(** [f[i] = x]: a write past the end lengthens the array. *)
Definition sparse_set (f : sparse) (i : nat) (x : number) : sparse :=
  if (i <? length f)%nat then <[i := Some x]> f
  else f ++ replicate (i - length f) None ++ [Some x].

Definition sparse_push (f : sparse) (x : number) : sparse := f ++ [Some x].

(** [for (i = lo; i < hi; ++i) body] *)
Definition for_loop {A} (lo hi : nat) (body : nat → A → A) (init : A) : A :=
  foldl (λ acc i, body i acc) init (seq lo (hi - lo)).

(** How often [for (i = 0; i < bound; ++i)] runs for a numeric bound:
    the least integer that is not below a positive bound, and never for
    a bound that is zero, negative or NaN.  (An infinite bound would not
    end the loop; the bounds of this class stay below 100.) *)
Definition trip_count (bound : number) : nat :=
  match Prim2SF bound with
  | S754_finite false m e =>
      Z.to_nat (- Z.shiftr (Z.neg m) (- e))
  | _ => 0
  end.

(** *** Objects used as tables

    Own properties in creation order.  Enumeration ([for ... in]) visits
    the array-index keys first, in ascending numeric order, and then the
    other keys in creation order. *)

Abbreviation object := (list (string * Z)).

Definition hasOwnProperty (o : object) (k : string) : bool :=
  bool_decide (k ∈ o.*1).

Fixpoint get (o : object) (k : string) : option Z :=
  match o with
  | [] => None
  | (k', v) :: o' => if bool_decide (k' = k) then Some v else get o' k
  end.

Fixpoint set (o : object) (k : string) (v : Z) : object :=
  match o with
  | [] => [(k, v)]
  | (k', v') :: o' =>
      if bool_decide (k' = k) then (k', v) :: o' else (k', v') :: set o' k v
  end.

Fixpoint insert_asc (n : N) (sorted : list N) : list N :=
  match sorted with
  | [] => [n]
  | m :: rest => if (n <=? m)%N then n :: m :: rest else m :: insert_asc n rest
  end.

Definition sort_asc (l : list N) : list N := foldr insert_asc [] l.

Definition own_keys (o : object) : list string :=
  (pretty <$> sort_asc (omap array_index o.*1))
  ++ filter (λ k, array_index k = None) o.*1.

(** *** Completions: a call returns normally or throws *)

Inductive error := TypeError.

Inductive completion (A : Type) :=
  | Normal (a : A)
  | Throw (e : error).
Arguments Normal {A} a.
Arguments Throw {A} e.

#[global] Instance completion_ret : MRet completion := λ A a, Normal a.
#[global] Instance completion_bind : MBind completion := λ A B f m,
  match m with Normal a => f a | Throw e => Throw e end.
#[global] Instance completion_fmap : FMap completion := λ A B f m,
  match m with Normal a => Normal (f a) | Throw e => Throw e end.

(** An argument declared [Array<number>] may be missing or [null]. *)
Inductive reference :=
  | undefined
  | null
  | Array (a : array).

Definition nullish (r : reference) : bool :=
  match r with Array _ => false | _ => true end.

(** [r.length] and [r.slice()] throw on [undefined] and [null]. *)
Definition length_of (r : reference) : completion nat :=
  match r with Array a => Normal (length a) | _ => Throw TypeError end.

Definition slice_of (r : reference) : completion reference :=
  match r with Array a => Normal (Array (slice_all a)) | _ => Throw TypeError end.

Definition elem_of_ref (r : reference) (i : nat) : completion value :=
  match r with Array a => Normal (elem a i) | _ => Throw TypeError end.

(** *** Arrays of any elements

    An array whose elements are objects, again with holes.  Using an
    element that is [undefined] as an object ([a[i][j]], [a[i].push])
    throws. *)

Abbreviation slots A := (list (option A)).

Definition slot_get {A} (a : slots A) (i : nat) : option A := mjoin (a !! i).

Definition slot_set {A} (a : slots A) (i : nat) (x : A) : slots A :=
  if (i <? length a)%nat then <[i := Some x]> a
  else a ++ replicate (i - length a) None ++ [Some x].

Definition slot_push {A} (a : slots A) (x : A) : slots A := a ++ [Some x].

Definition object_at {A} (a : slots A) (i : nat) : completion A :=
  match slot_get a i with
  | Some o => Normal o
  | None => Throw TypeError
  end.

(** An argument declared [Array<Array<number>>]: missing, [null], or
    rows of numbers. *)
Inductive matrix :=
  | no_matrix
  | null_matrix
  | Matrix (rows : list array).

(** [x[i]] used as an array, for the rows of an argument. *)
Definition row_at (rows : list array) (i : nat) : completion array :=
  match rows !! i with
  | Some row => Normal row
  | None => Throw TypeError
  end.

End JS.

(** ** The class [TSMT$DataStats] *)

Module DataStats.
Import JS.

Record t := mk {
  _data : array;
  _mean : number;
  _std : number;
  _median : number;
  _mode : number;
  _min : number;
  _max : number;
  _minInvalidated : bool;
  _maxInvalidated : bool;
  _meanInvalidated : bool;
  _stdInvalidated : bool;
  _medianInvalidated : bool;
  _modeInvalidated : bool
}.

Definition constructor : t :=
  mk [] 0%float 0%float 0%float 0%float 0%float 0%float
     true true true true true true.

(** Field assignments [this._x = v]. *)
Definition set_mean (v : number) (s : t) : t :=
  mk (_data s) v (_std s) (_median s) (_mode s) (_min s) (_max s)
     (_minInvalidated s) (_maxInvalidated s) (_meanInvalidated s)
     (_stdInvalidated s) (_medianInvalidated s) (_modeInvalidated s).
Definition set_std (v : number) (s : t) : t :=
  mk (_data s) (_mean s) v (_median s) (_mode s) (_min s) (_max s)
     (_minInvalidated s) (_maxInvalidated s) (_meanInvalidated s)
     (_stdInvalidated s) (_medianInvalidated s) (_modeInvalidated s).
Definition set_median (v : number) (s : t) : t :=
  mk (_data s) (_mean s) (_std s) v (_mode s) (_min s) (_max s)
     (_minInvalidated s) (_maxInvalidated s) (_meanInvalidated s)
     (_stdInvalidated s) (_medianInvalidated s) (_modeInvalidated s).
Definition set_mode (v : number) (s : t) : t :=
  mk (_data s) (_mean s) (_std s) (_median s) v (_min s) (_max s)
     (_minInvalidated s) (_maxInvalidated s) (_meanInvalidated s)
     (_stdInvalidated s) (_medianInvalidated s) (_modeInvalidated s).
Definition set_min (v : number) (s : t) : t :=
  mk (_data s) (_mean s) (_std s) (_median s) (_mode s) v (_max s)
     (_minInvalidated s) (_maxInvalidated s) (_meanInvalidated s)
     (_stdInvalidated s) (_medianInvalidated s) (_modeInvalidated s).
Definition set_max (v : number) (s : t) : t :=
  mk (_data s) (_mean s) (_std s) (_median s) (_mode s) (_min s) v
     (_minInvalidated s) (_maxInvalidated s) (_meanInvalidated s)
     (_stdInvalidated s) (_medianInvalidated s) (_modeInvalidated s).
Definition set_meanInvalidated (b : bool) (s : t) : t :=
  mk (_data s) (_mean s) (_std s) (_median s) (_mode s) (_min s) (_max s)
     (_minInvalidated s) (_maxInvalidated s) b
     (_stdInvalidated s) (_medianInvalidated s) (_modeInvalidated s).
Definition set_stdInvalidated (b : bool) (s : t) : t :=
  mk (_data s) (_mean s) (_std s) (_median s) (_mode s) (_min s) (_max s)
     (_minInvalidated s) (_maxInvalidated s) (_meanInvalidated s)
     b (_medianInvalidated s) (_modeInvalidated s).
Definition set_medianInvalidated (b : bool) (s : t) : t :=
  mk (_data s) (_mean s) (_std s) (_median s) (_mode s) (_min s) (_max s)
     (_minInvalidated s) (_maxInvalidated s) (_meanInvalidated s)
     (_stdInvalidated s) b (_modeInvalidated s).
Definition set_modeInvalidated (b : bool) (s : t) : t :=
  mk (_data s) (_mean s) (_std s) (_median s) (_mode s) (_min s) (_max s)
     (_minInvalidated s) (_maxInvalidated s) (_meanInvalidated s)
     (_stdInvalidated s) (_medianInvalidated s) b.

(** [this._data[i]] inside arithmetic and comparisons. *)
Definition data_at (s : t) (i : nat) : number := ToNumber (elem (_data s) i).

Definition isEven (n : nat) : bool := (Z.land (Z.of_nat n) 1 =? 0)%Z.

(** The setter [data]. *)
Definition set_data (dataProvider : reference) (s : t) : t :=
  match dataProvider with
  | undefined | null => s
  | Array a =>
      if (length a =? 0)%nat then s
      else mk (slice_all a)
              (_mean s) (_std s) (_median s) (_mode s) (_min s) (_max s)
              true true true true true true
  end.

Definition samples (s : t) : nat := length (_data s).

Definition min (s : t) : number * t :=
  let n := length (_data s) in
  if (n =? 0)%nat then (0%float, s)
  else
    let s :=
      if _minInvalidated s then
        let min :=
          for_loop 0 n
            (λ i min, if lt (data_at s i) min then data_at s i else min)
            MAX_VALUE in
        set_min min s
      else s in
    (_min s, s).

Definition max (s : t) : number * t :=
  let n := length (_data s) in
  if (n =? 0)%nat then (0%float, s)
  else
    let s :=
      if _maxInvalidated s then
        let max :=
          for_loop 0 n
            (λ i max, if gt (data_at s i) max then data_at s i else max)
            MIN_VALUE in
        set_max max s
      else s in
    (_max s, s).

(** The even/odd rule for the median of the [n] sorted values of [a],
    which [median] and [fiveNumbers] (for both quartiles) write out. *)
Definition middle (n : nat) (a : array) : number :=
  if isEven n then
    let m := (n / 2 - 1)%nat in
    (0.5 * (ToNumber (elem a m) + ToNumber (elem a (m + 1))))%float
  else
    let m := ((n + 1) / 2 - 1)%nat in
    ToNumber (elem a m).

Definition fiveNumbers (s : t) : list number :=
  let n := length (_data s) in
  if (n =? 0)%nat then []
  else if (n =? 1)%nat then
    [data_at s 0; data_at s 0; data_at s 0; data_at s 0; data_at s 0]
  else
    let data := sort (λ a b, (a - b)%float) (slice_all (_data s)) in
    let dataMin := ToNumber (elem data 0) in
    let dataMax := ToNumber (elem data (n - 1)) in
    let '(dataMed, lower, upper) :=
      if isEven n then
        let m := (n / 2 - 1)%nat in
        ((0.5 * (ToNumber (elem data m) + ToNumber (elem data (m + 1))))%float,
         slice data 0 (m + 1), slice data (m + 1) n)
      else
        let m := ((n + 1) / 2 - 1)%nat in
        let dataMed := ToNumber (elem data m) in
        (dataMed, push (slice data 0 m) dataMed,
         unshift (slice data (m + 1) n) dataMed) in
    let lowerQuartile := middle (length lower) lower in
    let upperQuartile := middle (length upper) upper in
    [dataMin; lowerQuartile; dataMed; upperQuartile; dataMax].

Definition fences (s : t) : number * number :=
  let num := fiveNumbers s in
  let q1 := ToNumber (num !! 1%nat) in
  let q3 := ToNumber (num !! 3%nat) in
  let iqr := (q3 - q1)%float in
  ((q1 - 1.5 * iqr)%float, (q3 + 1.5 * iqr)%float).

(** The array [f] of [getQuantile] for [n] samples. *)
Definition quantile_fractions (n : nat) : sparse :=
  let f : sparse := [] in
  let n1 := (1 / (of_nat n - 1))%float in
  let f :=
    for_loop 1 (n - 1)
      (λ i f, sparse_set f i (ToNumber (sparse_get f (i - 1)) + n1)%float) f in
  sparse_push f 1%float.

Definition getQuantile (_p : value) (s : t) : list value :=
  let p :=
    if isNaN (ToNumber _p) || lt (ToNumber _p) 0.01%float
       || gt (ToNumber _p) 0.99%float
    then 0.25%float else ToNumber _p in
  let n := length (_data s) in
  let nQuant := Math_floor (1 / p)%float in
  if (n <? 2)%nat then []
  else
    let f := quantile_fractions n in
    let quantiles : list value := [] in
    let data := sort (λ a b, (a - b)%float) (slice_all (_data s)) in
    let quantiles := quantiles ++ [elem data 0] in
    let n1 := (of_nat n - 1)%float in
    let '(_, quantiles) :=
      for_loop 0 (trip_count (nQuant - 1)%float)
        (λ _ '(q, quantiles),
           let q := (q + p)%float in
           let r := Math_floor (q * n1)%float in
           if lt (Math_abs (ToNumber (sparse_get_at f r) - q)%float) 0.001%float
           then (q, quantiles ++ [elem_at data r])
           else
             let t :=
               ((q - ToNumber (sparse_get_at f r))
                / (ToNumber (sparse_get_at f (r + 1)%float)
                   - ToNumber (sparse_get_at f r)))%float in
             let interp :=
               ((1 - t) * ToNumber (elem_at data r)
                + t * ToNumber (elem_at data (r + 1)%float))%float in
             (q, quantiles ++ [Some interp]))
        (0%float, quantiles) in
    quantiles ++ [elem data (length data - 1)].

(** The loop of [mean]: the sum [s], started at [_data[0]]. *)
Definition sum_loop (data : array) : number :=
  for_loop 1 (length data)
    (λ i sum, (sum + ToNumber (elem data i))%float)
    (ToNumber (elem data 0)).

Definition mean (s : t) : number * t :=
  if _meanInvalidated s then
    let sum := sum_loop (_data s) in
    let n := length (_data s) in
    if (n =? 0)%nat then (0%float, s)
    else
      let s := set_meanInvalidated false (set_mean (sum / of_nat n)%float s) in
      (_mean s, s)
  else (_mean s, s).

(** The loop of [std]: the running mean [m] and the running sum [s]. *)
Definition welford_loop (data : array) : number * number :=
  for_loop 0 (length data)
    (λ i '(m, s),
       let m_old := m in
       let d := (ToNumber (elem data i) - m_old)%float in
       let m := (m + d / of_nat (i + 1))%float in
       let s := (s + (ToNumber (elem data i) - m) * d)%float in
       (m, s))
    (0%float, 0%float).

Definition std (s : t) : number * t :=
  if _stdInvalidated s then
    let n := length (_data s) in
    if (n =? 1)%nat then (0%float, s)
    else
      let '(_, sum) := welford_loop (_data s) in
      let s :=
        set_stdInvalidated false
          (set_std (Math_sqrt (sum / (of_nat n - 1))%float) s) in
      (_std s, s)
  else (_std s, s).

Definition cv (s : t) : number * t :=
  let '(sd, s) := std s in
  let '(m, s) := mean s in
  ((sd / m * 100)%float, s).

Definition median (s : t) : number * t :=
  if _medianInvalidated s then
    let n := length (_data s) in
    if (n =? 0)%nat then (0%float, s)
    else
      let tmp := sort (λ a b, (a - b)%float) (slice_all (_data s)) in
      let s := set_medianInvalidated false (set_median (middle n tmp) s) in
      (_median s, s)
  else (_median s, s).

(** One step of the first loop of [mode]: [hash[x]++] or [hash[x] = 1]. *)
Definition count_key (hash : object) (x : string) : object :=
  if hasOwnProperty hash x
  then set hash x (default 0 (get hash x) + 1)%Z
  else set hash x 1%Z.

(** The table [hash] of [mode]: occurrences per key. *)
Definition count_table (data : array) : object :=
  for_loop 0 (length data)
    (λ i hash, count_key hash (Number_toString (ToNumber (elem data i))))
    [].

(** The scan [for (value in hash)]: the best count so far and [_mode]. *)
Definition mode_scan (hash : object) (keys : list string)
  (init : Z * number) : Z * number :=
  foldl
    (λ '(count, mode) value,
       match get hash value with
       | Some c => if (count <? c)%Z then (c, parseInt value) else (count, mode)
       | None => (count, mode)
       end)
    init keys.

Definition mode (s : t) : number * t :=
  if _modeInvalidated s then
    let n := length (_data s) in
    if (n =? 0)%nat then (0%float, s)
    else
      let hash := count_table (_data s) in
      let '(_, m) := mode_scan hash (own_keys hash) ((-1)%Z, _mode s) in
      let s := set_modeInvalidated false (set_mode m s) in
      (_mode s, s)
  else (_mode s, s).

Definition getConfidenceInterval (_t : value) (s : t)
  : (number * number) * t :=
  let t := if isNaN (ToNumber _t) then 0.9%float else ToNumber _t in
  let t := Math_max 0.01%float t in
  let t := Math_min t 0.99%float in
  if (length (_data s) =? 0)%nat then ((0%float, 0%float), s)
  else
    let n := length (_data s) in
    let '(sd, s) := std s in
    let '(u, s) := mean s in
    let d := (t * sd / Math_sqrt (of_nat n))%float in
    (((u - d)%float, (u + d)%float), s).

Definition skewness (s : t) : number * t :=
  let n := length (_data s) in
  if (n <? 3)%nat then (0%float, s)
  else
    let mult :=
      (Math_sqrt (of_nat n * (of_nat n - 1)) / (of_nat n - 2))%float in
    let '(u, s) := mean s in
    let '(sd, s) := std s in
    let s1 :=
      for_loop 0 n
        (λ i s1, let z := (data_at s i - u)%float in (s1 + z * z * z)%float)
        0%float in
    let skew := (s1 / of_nat n / (sd * sd * sd))%float in
    ((mult * skew)%float, s).

Definition kurtosis (s : t) : number * t :=
  let n := length (_data s) in
  if (n <? 4)%nat then (0%float, s)
  else
    let '(u, s) := mean s in
    let '(sd, s) := std s in
    let s1 :=
      for_loop 0 n
        (λ i s1,
           let z := (data_at s i - u)%float in (s1 + z * z * z * z)%float)
        0%float in
    let n1 := (of_nat n - 1)%float in
    let n2 := (of_nat n - 2)%float in
    let n3 := (of_nat n - 3)%float in
    let a :=
      (of_nat n * (of_nat n + 1) * s1
       / (n1 * n2 * n3 * sd * sd * sd * sd))%float in
    let b := (3 * n1 * n1 / (n2 * n3))%float in
    ((a - b)%float, s).

(** A loop whose body may throw. *)
Definition for_loopM {A} (lo hi : nat) (body : nat → A → completion A)
  (init : A) : completion A :=
  foldl (λ acc i, a ← acc; body i a) (Normal init) (seq lo (hi - lo)).

(** The loop of [covariance]: the sum [s] of the centred products. *)
Definition product_loop (x y : reference) (n : nat) (xmean ymean : number)
  : completion number :=
  for_loopM 0 n
    (λ i sum,
       xi ← elem_of_ref x i;
       yi ← elem_of_ref y i;
       let xs := (ToNumber xi - xmean)%float in
       let ys := (ToNumber yi - ymean)%float in
       Normal (sum + xs * ys)%float)
    0%float.

Definition covariance (x y : reference) (s : t) : completion (number * t) :=
  if nullish x || nullish y then Normal (0%float, s)
  else
    n ← length_of x;
    ylen ← length_of y;
    if (n <? 2)%nat || negb (n =? ylen)%nat then Normal (0%float, s)
    else
      xcopy ← slice_of x;
      let s := set_data xcopy s in
      let '(xmean, s) := mean s in
      ycopy ← slice_of y;
      let s := set_data ycopy s in
      let '(ymean, s) := mean s in
      sum ← product_loop x y n xmean ymean;
      Normal ((sum / (of_nat n - 1))%float, s).

Definition correlation (x y : reference) (s : t) : completion (number * t) :=
  if nullish x || nullish y then Normal (0%float, s)
  else
    n ← length_of x;
    ylen ← length_of y;
    if (n <? 2)%nat || negb (n =? ylen)%nat then Normal (0%float, s)
    else
      let s := set_data x s in
      let '(xs, s) := std s in
      let s := set_data y s in
      let '(ys, s) := std s in
      '(cov, s) ← covariance x y s;
      Normal ((cov / (xs * ys))%float, s).

(** [covarianceMatrix]: the rows of [x] are the observations, the
    columns the variables.  It neither reads nor writes the engine. *)
Definition covarianceMatrix (x : matrix) : completion (slots (slots number)) :=
  match x with
  | no_matrix | null_matrix => Normal []
  | Matrix rows =>
      if (length rows =? 0)%nat then Normal []
      else
        let m := length rows in
        x0 ← row_at rows 0;
        let n := length x0 in
        let s := (1 / of_nat m)%float in
        let cov : slots (slots number) := [] in
        let cov :=
          for_loop 0 n
            (λ j cov, slot_set cov j (replicate (j + 1) (Some 0%float)))
            cov in
        let sums : slots number := [] in
        sums ← for_loopM 0 n
          (λ j sums,
             let sums := slot_set sums j 0%float in
             sums ← for_loopM 0 m
               (λ i sums,
                  xi ← row_at rows i;
                  Normal
                    (slot_set sums j
                       (ToNumber (slot_get sums j) + ToNumber (xi !! j))%float))
               sums;
             Normal (slot_set sums j (ToNumber (slot_get sums j) * s)%float))
          sums;
        let C : slots (slots number) := [] in
        C ← for_loopM 0 n
          (λ j C,
             let C := slot_push C [] in
             cj ← object_at C j;
             cj ← for_loopM 0 m
               (λ i cj,
                  xi ← row_at rows i;
                  Normal
                    (slot_push cj
                       (ToNumber (xi !! j) - ToNumber (slot_get sums j))%float))
               cj;
             Normal (slot_set C j cj))
          C;
        cov ← for_loopM 0 n
          (λ i cov,
             ci ← object_at C i;
             for_loopM 0 (i + 1)
               (λ j cov,
                  cj ← object_at C j;
                  let sum :=
                    for_loop 0 m
                      (λ k sum,
                         (sum + ToNumber (slot_get ci k)
                                * ToNumber (slot_get cj k))%float)
                      0%float in
                  row ← object_at cov i;
                  Normal (slot_set cov i (slot_set row j sum)))
               cov)
          cov;
        cov ← for_loopM 0 n
          (λ i cov,
             for_loopM 0 (i + 1)
               (λ j cov,
                  row ← object_at cov i;
                  Normal
                    (slot_set cov i
                       (slot_set row j (ToNumber (slot_get row j) * s)%float)))
               cov)
          cov;
        Normal cov
  end.

(** *** Histories of an engine

    The calls that can change the engine.  The other members
    ([samples], [isEven], [fiveNumbers], [fences], [getQuantile],
    [geometricMean], [harmonicMean], [covarianceMatrix]) only read
    [_data] and leave every field as it is. *)

Inductive call :=
  | SetData (dataProvider : reference)
  | GetMin | GetMax | GetMean | GetStd | GetCv | GetMedian | GetMode
  | GetSkewness | GetKurtosis
  | ConfidenceInterval (_t : value)
  | Covariance (x y : reference)
  | Correlation (x y : reference).

Definition exec (c : call) (s : t) : completion t :=
  match c with
  | SetData d => Normal (set_data d s)
  | GetMin => Normal (min s).2
  | GetMax => Normal (max s).2
  | GetMean => Normal (mean s).2
  | GetStd => Normal (std s).2
  | GetCv => Normal (cv s).2
  | GetMedian => Normal (median s).2
  | GetMode => Normal (mode s).2
  | GetSkewness => Normal (skewness s).2
  | GetKurtosis => Normal (kurtosis s).2
  | ConfidenceInterval t => Normal (getConfidenceInterval t s).2
  | Covariance x y => snd <$> covariance x y s
  | Correlation x y => snd <$> correlation x y s
  end.

Inductive reachable : t → Prop :=
  | reachable_new : reachable constructor
  | reachable_call c s s' :
      reachable s → exec c s = Normal s' → reachable s'.

End DataStats.

(** ** Array identity

    The caller's array and the engine's [_data] are objects on a heap;
    the setter stores the result of [dataProvider.slice()], a new
    object.  The fields of the engine are kept by value next to the
    address of its [_data] array. *)

Module Heap.
Import JS.

Abbreviation loc := positive.
Abbreviation heap := (gmap loc array).

Inductive pointer :=
  | Undefined
  | Null
  | Ref (l : loc).

(** What a pointer denotes; an address bound to nothing denotes nothing. *)
Definition deref (h : heap) (p : pointer) : reference :=
  match p with
  | Undefined => undefined
  | Null => null
  | Ref l => from_option Array undefined (h !! l)
  end.

Record engine := {
  data_ref : loc;
  fields : DataStats.t
}.

(** The heap holds the engine's sample at the engine's address. *)
Definition owns (h : heap) (e : engine) : Prop :=
  h !! data_ref e = Some (DataStats._data (fields e)).

(** The setter [data] on the heap. *)
Definition set_data (p : pointer) (h : heap) (e : engine) : heap * engine :=
  match deref h p with
  | Array a =>
      if (length a =? 0)%nat then (h, e)
      else
        let l := fresh (dom h) in
        (<[l := slice_all a]> h,
         {| data_ref := l;
            fields := DataStats.set_data (Array a) (fields e) |})
  | _ => (h, e)
  end.

(** The caller's [a[i] = x] on an array it still holds. *)
Definition write (l : loc) (i : nat) (x : number) (h : heap) : heap :=
  alter (λ a, <[i := x]> a) l h.

End Heap.

(** ** Notions the specification speaks of *)

Module Spec.
Import JS DataStats.

(** Welford's recurrence, element by element: [d = x_i - m],
    [m = m + d / (i + 1)], [s = s + (x_i - m) * d]. *)
Fixpoint welford_from (i : nat) (m s : number) (xs : list number)
  : number * number :=
  match xs with
  | [] => (m, s)
  | x :: rest =>
      let d := (x - m)%float in
      let m' := (m + d / of_nat (i + 1))%float in
      let s' := (s + (x - m') * d)%float in
      welford_from (S i) m' s' rest
  end.

Definition welford (xs : list number) : number * number :=
  welford_from 0 0%float 0%float xs.

(** The standard deviation the recurrence yields for a sample. *)
Definition welford_std (xs : list number) : number :=
  if (length xs =? 1)%nat then 0%float
  else Math_sqrt ((welford xs).2 / (of_nat (length xs) - 1))%float.

(** Inputs [covariance] and [correlation] accept: both present, of one
    length, which is at least 2. *)
Definition valid_inputs (x y : reference) : bool :=
  match x, y with
  | Array xa, Array ya =>
      (2 <=? length xa)%nat && (length xa =? length ya)%nat
  | _, _ => false
  end.

(** The key under which a sample value is counted. *)
Definition key (x : number) : string := Number_toString x.

(** How often a key occurs among the keys of a sample. *)
Definition occurrences (k : string) (ks : list string) : nat :=
  length (filter (λ k', k' = k) ks).

(** [k] occurs in [ks], and first occurs there before [k'] does. *)
Definition first_before (ks : list string) (k k' : string) : Prop :=
  ∃ pre post, ks = pre ++ k :: post ∧ k' ∉ pre.

(** The order in which a table whose keys were created in the order
    [ks] enumerates two of them: array indices ascending and ahead of
    all other keys, which follow in creation order. *)
Definition enumerated_before (ks : list string) (k k' : string) : Prop :=
  match array_index k, array_index k' with
  | Some i, Some j => (i < j)%N
  | Some _, None => True
  | None, Some _ => False
  | None, None => first_before ks k k'
  end.

(** The mode as the specification words it: a sample value of maximal
    count, and among several such the one that was inserted first. *)
Definition first_inserted_mode (xs : list number) (v : number) : Prop :=
  let ks := key <$> xs in
  v ∈ xs
  ∧ (∀ w, w ∈ xs → occurrences (key w) ks ≤ occurrences (key v) ks)
  ∧ (∀ w, w ∈ xs → key w ≠ key v →
       occurrences (key w) ks = occurrences (key v) ks →
       first_before ks (key v) (key w)).

(** The same with the ties decided by the enumeration order. *)
Definition first_enumerated_mode (xs : list number) (v : number) : Prop :=
  let ks := key <$> xs in
  v ∈ xs
  ∧ (∀ w, w ∈ xs → occurrences (key w) ks ≤ occurrences (key v) ks)
  ∧ (∀ w, w ∈ xs → key w ≠ key v →
       occurrences (key w) ks = occurrences (key v) ks →
       enumerated_before ks (key v) (key w)).

(** What the table holds once the keys [ks] have been counted: the keys
    of [ks], each once, in the order of their first occurrences, each
    with the number of its occurrences. *)
Definition counted (ks : list string) (hash : object) : Prop :=
  NoDup hash.*1
  ∧ (∀ k, k ∈ hash.*1 ↔ k ∈ ks)
  ∧ (∀ k, k ∈ ks → get hash k = Some (Z.of_nat (occurrences k ks)))
  ∧ (∀ before k after, hash.*1 = before ++ k :: after →
       ∃ pre post, ks = pre ++ k :: post ∧ ∀ k', k' ∈ pre → k' ∈ before).

(** The value [mode] caches for a sample that is not empty. *)
Definition mode_of (xs : list number) : number :=
  let hash := count_table xs in
  (mode_scan hash (own_keys hash) ((-1)%Z, 0%float)).2.

(** What the caches of [std] and [mode] hold while their flags are down. *)
Definition caches_valid (s : t) : Prop :=
  (_stdInvalidated s = false →
     length (_data s) ≠ 1%nat ∧ _std s = welford_std (_data s))
  ∧ (_modeInvalidated s = false →
     _data s ≠ [] ∧ _mode s = mode_of (_data s)).

(** The values the cached accessors compute from a sample: the mean as
    the sum from the left over the size, the median by the even/odd rule
    on the sorted copy, and the results of the scans of [min] and
    [max]. *)
Definition mean_of (xs : list number) : number :=
  match xs with
  | [] => 0%float
  | x :: rest =>
      (foldl (λ sum y, (sum + y)%float) x rest / of_nat (length xs))%float
  end.

Definition median_of (xs : list number) : number :=
  match xs with
  | [] => 0%float
  | _ => middle (length xs) (sort (λ a b, (a - b)%float) xs)
  end.

Definition least (xs : list number) : number :=
  foldl (λ min x, if lt x min then x else min) MAX_VALUE xs.

Definition greatest (xs : list number) : number :=
  foldl (λ max x, if gt x max then x else max) MIN_VALUE xs.

(** What the flags and caches of [min], [max], [mean] and [median] are
    along a history. *)
Definition queries_valid (s : t) : Prop :=
  _minInvalidated s = true
  ∧ _maxInvalidated s = true
  ∧ (_meanInvalidated s = false →
     _data s ≠ [] ∧ _mean s = mean_of (_data s))
  ∧ (_medianInvalidated s = false →
     _data s ≠ [] ∧ _median s = median_of (_data s)).


(** The fraction [getQuantile] works with: the argument, or 0.25 when the
    argument is missing, NaN or outside of 0.01 .. 0.99. *)
Definition quantile_fraction (_p : value) : number :=
  if isNaN (ToNumber _p) || lt (ToNumber _p) 0.01%float
     || gt (ToNumber _p) 0.99%float
  then 0.25%float else ToNumber _p.

(** The sample covariance of two series, pair by pair. *)
Definition covariance_of (xs ys : list number) : number :=
  (foldl (λ sum '(x, y), (sum + (x - mean_of xs) * (y - mean_of ys))%float)
     0%float (zip xs ys)
   / (of_nat (length xs) - 1))%float.

(** The confidence factor [getConfidenceInterval] works with. *)
Definition confidence_factor (_t : value) : number :=
  Math_min
    (Math_max 0.01%float
       (if isNaN (ToNumber _t) then 0.9%float else ToNumber _t))
    0.99%float.

(** The covariance matrix, entry by entry: [x[k][j]], the mean of
    column [j] over the [m] rows, and the entry for the columns [i] and
    [j], each sum taken from 0 through the rows and scaled by [1 / m]. *)
Definition entry_at (rows : list array) (k j : nat) : number :=
  ToNumber (row ← rows !! k; row !! j).

Definition column_mean (rows : list array) (j : nat) : number :=
  (foldl (λ sum k, (sum + entry_at rows k j)%float) 0%float
     (seq 0 (length rows))
   * (1 / of_nat (length rows)))%float.

Definition centred (rows : list array) (j k : nat) : number :=
  (entry_at rows k j - column_mean rows j)%float.

Definition matrix_entry (rows : list array) (i j : nat) : number :=
  (foldl (λ sum k, (sum + centred rows i k * centred rows j k)%float) 0%float
     (seq 0 (length rows))
   * (1 / of_nat (length rows)))%float.

(** A lower triangle of [n] rows without holes: row [i] has the entries
    [cell i 0 .. cell i i]. *)
Definition triangle (cell : nat → nat → number) (n : nat)
  : slots (slots number) :=
  (λ i, Some ((λ j, Some (cell i j)) <$> seq 0 (i + 1))) <$> seq 0 n.

End Spec.

(** * Properties *)

Import JS DataStats Spec.

(** ** Arrays and loops *)

Lemma slice_all_id (a : array) : slice_all a = a.
Proof.
  unfold slice_all, slice. rewrite Nat.sub_0_r. simpl. apply firstn_all.
Qed.

Lemma foldl_pointwise {A B} (f g : A → B → A) (l : list B) (a : A) :
  (∀ acc i, i ∈ l → f acc i = g acc i) → foldl f a l = foldl g a l.
Proof.
  revert a. induction l as [|i l IH]; intros a Hfg; simpl; [done|].
  rewrite Hfg by left. apply IH. intros acc j Hj. apply Hfg. by right.
Qed.

Lemma for_loopM_Normal {A} lo hi (bodyM : nat → A → completion A)
  (body : nat → A → A) (init : A) :
  (∀ i a, bodyM i a = Normal (body i a)) →
  for_loopM lo hi bodyM init = Normal (for_loop lo hi body init).
Proof.
  intros Hbody. unfold for_loopM, for_loop.
  generalize (seq lo (hi - lo)). intros l. revert init.
  induction l as [|i l IH]; intros init; simpl; [done|].
  rewrite Hbody. apply IH.
Qed.

Lemma product_loop_Array xa ya n xmean ymean :
  product_loop (Array xa) (Array ya) n xmean ymean =
  Normal (for_loop 0 n
            (λ i sum,
               (sum + (ToNumber (elem xa i) - xmean)
                      * (ToNumber (elem ya i) - ymean))%float)
            0%float).
Proof. unfold product_loop. by apply for_loopM_Normal. Qed.

(** ** What each accessor leaves alone *)

Lemma set_data_Array (a : array) (s : t) :
  a ≠ [] →
  set_data (Array a) s =
  mk a (_mean s) (_std s) (_median s) (_mode s) (_min s) (_max s)
     true true true true true true.
Proof.
  intros Ha. unfold set_data. rewrite slice_all_id.
  destruct a; [done|reflexivity].
Qed.

Lemma set_data_nothing (d : reference) (s : t) :
  d = undefined ∨ d = null ∨ d = Array [] → set_data d s = s.
Proof. by intros [->|[->| ->]]. Qed.

Lemma mean_data (s : t) : _data (mean s).2 = _data s.
Proof.
  unfold mean. destruct (_meanInvalidated s); [|done].
  by destruct (length (_data s) =? 0)%nat.
Qed.

Lemma std_data (s : t) : _data (std s).2 = _data s.
Proof.
  unfold std. destruct (_stdInvalidated s); [|done].
  destruct (length (_data s) =? 1)%nat; [done|].
  by destruct (welford_loop (_data s)).
Qed.

(** A fresh assignment makes [mean] recompute from the sample alone. *)
Lemma mean_after_set_data (a : array) (s : t) :
  a ≠ [] →
  (mean (set_data (Array a) s)).1 = (sum_loop a / of_nat (length a))%float.
Proof.
  intros Ha. rewrite set_data_Array by done. unfold mean. simpl.
  destruct a; [done|reflexivity].
Qed.

Lemma covariance_valid (xa ya : array) (s : t) :
  valid_inputs (Array xa) (Array ya) = true →
  ∃ s',
    covariance (Array xa) (Array ya) s =
    Normal
      ((for_loop 0 (length xa)
          (λ i sum,
             (sum + (ToNumber (elem xa i)
                     - sum_loop xa / of_nat (length xa))
                    * (ToNumber (elem ya i)
                       - sum_loop ya / of_nat (length ya)))%float)
          0%float
        / (of_nat (length xa) - 1))%float, s')
    ∧ _data s' = ya
    ∧ s' = (mean (set_data (Array ya) (mean (set_data (Array xa) s)).2)).2.
Proof.
  unfold valid_inputs. intros [Hn Hlen]%andb_true_iff.
  apply Nat.leb_le in Hn. apply Nat.eqb_eq in Hlen.
  assert (Hxa : xa ≠ []) by (destruct xa; [simpl in Hn; lia|done]).
  assert (Hya : ya ≠ []) by (destruct ya; [simpl in Hlen; lia|done]).
  unfold covariance. cbn [nullish orb length_of slice_of mbind completion_bind].
  replace (length xa <? 2)%nat with false by (symmetry; apply Nat.ltb_ge; lia).
  replace (length xa =? length ya)%nat with true
    by (symmetry; by apply Nat.eqb_eq).
  cbn [orb negb]. rewrite !slice_all_id.
  pose proof (mean_after_set_data xa s Hxa) as Hmx.
  destruct (mean (set_data (Array xa) s)) as [xmean s1]. cbn [fst snd] in *.
  pose proof (mean_after_set_data ya s1 Hya) as Hmy.
  pose proof (mean_data (set_data (Array ya) s1)) as Hd.
  destruct (mean (set_data (Array ya) s1)) as [ymean s2].
  cbn [fst snd] in *. rewrite product_loop_Array. cbn [mbind completion_bind].
  exists s2. split; [|split; [|done]].
  - by rewrite Hmx, Hmy.
  - rewrite Hd. by rewrite set_data_Array.
Qed.

Lemma covariance_invalid (x y : reference) (s : t) :
  valid_inputs x y = false → covariance x y s = Normal (0%float, s).
Proof.
  unfold valid_inputs, covariance. destruct x as [| |xa], y as [| |ya]; try done.
  intros H. cbn [nullish orb length_of mbind completion_bind].
  destruct (length xa <? 2)%nat eqn:Hlt; [done|].
  apply Nat.ltb_ge, Nat.leb_le in Hlt. rewrite Hlt in H. simpl in H.
  by rewrite H.
Qed.

Lemma correlation_invalid (x y : reference) (s : t) :
  valid_inputs x y = false → correlation x y s = Normal (0%float, s).
Proof.
  unfold valid_inputs, correlation. destruct x as [| |xa], y as [| |ya]; try done.
  intros H. cbn [nullish orb length_of mbind completion_bind].
  destruct (length xa <? 2)%nat eqn:Hlt; [done|].
  apply Nat.ltb_ge, Nat.leb_le in Hlt. rewrite Hlt in H. simpl in H.
  by rewrite H.
Qed.

Lemma correlation_valid (xa ya : array) (s : t) :
  valid_inputs (Array xa) (Array ya) = true →
  ∃ v s',
    correlation (Array xa) (Array ya) s = Normal (v, s') ∧ _data s' = ya
    ∧ s' = (mean (set_data (Array ya)
              (mean (set_data (Array xa)
                 (std (set_data (Array ya)
                    (std (set_data (Array xa) s)).2)).2)).2)).2.
Proof.
  intros Hv. pose proof Hv as [Hn Hlen]%andb_true_iff.
  apply Nat.leb_le in Hn. apply Nat.eqb_eq in Hlen.
  unfold correlation. cbn [nullish orb length_of mbind completion_bind].
  replace (length xa <? 2)%nat with false by (symmetry; apply Nat.ltb_ge; lia).
  replace (length xa =? length ya)%nat with true
    by (symmetry; by apply Nat.eqb_eq).
  cbn [orb negb].
  destruct (std (set_data (Array xa) s)) as [xs s1] eqn:Hxs.
  cbn [snd]. destruct (std (set_data (Array ya) s1)) as [ys s2] eqn:Hys.
  destruct (covariance_valid xa ya s2 Hv) as (s' & -> & Hd & Hs').
  cbn [mbind completion_bind fst snd]. by eexists _, s'.
Qed.

(** ** The association operations *)

(** C7: after [covariance(x, y)] or [correlation(x, y)] on valid inputs
    (both present, of equal length, at least two elements) the call
    returns normally and the sample the engine stores holds the elements
    of [y]. *)
Theorem association_stores_y (xa ya : array) (s : t) :
  valid_inputs (Array xa) (Array ya) = true →
  (∃ v s', covariance (Array xa) (Array ya) s = Normal (v, s') ∧ _data s' = ya)
  ∧ (∃ v s', correlation (Array xa) (Array ya) s = Normal (v, s') ∧ _data s' = ya).
Proof.
  intros Hv. split.
  - destruct (covariance_valid xa ya s Hv) as (s' & Hc & Hd & _). eauto.
  - destruct (correlation_valid xa ya s Hv) as (v & s' & Hc & Hd & _). eauto.
Qed.

Lemma association_stores_y_witness :
  (∃ v s',
     covariance (Array [2.1; 2.5; 4; 3.6]%float) (Array [8; 12; 14; 10]%float)
       constructor = Normal (v, s')
     ∧ _data s' = [8; 12; 14; 10]%float)
  ∧ (∃ v s',
     correlation (Array [2.1; 2.5; 4; 3.6]%float) (Array [8; 12; 14; 10]%float)
       constructor = Normal (v, s')
     ∧ _data s' = [8; 12; 14; 10]%float).
Proof. apply association_stores_y. reflexivity. Defined.

(** C8: on too small an input every operation returns its neutral value,
    and returns normally: [getQuantile] the empty array below two
    samples, [skewness] 0 below three, [kurtosis] 0 below four, and
    [covariance] and [correlation] 0 for two arrays of different lengths
    or of fewer than two elements. *)
Theorem insufficient_size_is_neutral (s : t) :
  (length (_data s) < 2 → ∀ p, getQuantile p s = [])
  ∧ (length (_data s) < 3 → (skewness s).1 = 0%float)
  ∧ (length (_data s) < 4 → (kurtosis s).1 = 0%float)
  ∧ (∀ xa ya,
       length xa ≠ length ya ∨ length xa < 2 →
       (fst <$> covariance (Array xa) (Array ya) s) = Normal 0%float
       ∧ (fst <$> correlation (Array xa) (Array ya) s) = Normal 0%float).
Proof.
  split; [|split; [|split]].
  - intros Hn p. unfold getQuantile.
    by replace (length (_data s) <? 2)%nat with true
      by (symmetry; by apply Nat.ltb_lt).
  - intros Hn. unfold skewness.
    by replace (length (_data s) <? 3)%nat with true
      by (symmetry; by apply Nat.ltb_lt).
  - intros Hn. unfold kurtosis.
    by replace (length (_data s) <? 4)%nat with true
      by (symmetry; by apply Nat.ltb_lt).
  - intros xa ya Hsize.
    assert (valid_inputs (Array xa) (Array ya) = false) as Hv.
    { unfold valid_inputs. apply andb_false_iff.
      destruct Hsize as [Hne|Hlt].
      - right. by apply Nat.eqb_neq.
      - left. apply Nat.leb_gt. lia. }
    by rewrite covariance_invalid, correlation_invalid.
Qed.

Lemma insufficient_size_is_neutral_witness :
  getQuantile (Some 0.25%float) (set_data (Array [7%float]) constructor) = []
  ∧ (skewness (set_data (Array [7; 9]%float) constructor)).1 = 0%float
  ∧ (kurtosis (set_data (Array [7; 9; 4]%float) constructor)).1 = 0%float
  ∧ (fst <$> covariance (Array [1; 2; 3]%float) (Array [1; 2]%float)
               constructor) = Normal 0%float
  ∧ (fst <$> correlation (Array [1%float]) (Array [2%float])
               constructor) = Normal 0%float.
Proof.
  split; [|split; [|split; [|split]]].
  - apply (insufficient_size_is_neutral
             (set_data (Array [7%float]) constructor)). simpl. lia.
  - apply (insufficient_size_is_neutral
             (set_data (Array [7; 9]%float) constructor)). simpl. lia.
  - apply (insufficient_size_is_neutral
             (set_data (Array [7; 9; 4]%float) constructor)). simpl. lia.
  - apply (insufficient_size_is_neutral constructor). left. simpl. lia.
  - apply (insufficient_size_is_neutral constructor). right. simpl. lia.
Defined.

(** C9: called with invalid inputs (an array absent or null, lengths
    that differ, or fewer than two elements) [covariance] and
    [correlation] return 0 and leave the engine as it was: the stored
    sample, every cached value and every flag. *)
Theorem invalid_association_changes_nothing (x y : reference) (s : t) :
  valid_inputs x y = false →
  covariance x y s = Normal (0%float, s)
  ∧ correlation x y s = Normal (0%float, s).
Proof.
  intros Hv. split; [by apply covariance_invalid|by apply correlation_invalid].
Qed.

Lemma invalid_association_changes_nothing_witness :
  let s := (mean (set_data (Array [3; 1; 2]%float) constructor)).2 in
  (covariance null (Array [1; 2]%float) s = Normal (0%float, s)
   ∧ correlation null (Array [1; 2]%float) s = Normal (0%float, s))
  ∧ (covariance (Array [1; 2; 3]%float) (Array [1; 2]%float) s
       = Normal (0%float, s)
     ∧ correlation (Array [1; 2; 3]%float) (Array [1; 2]%float) s
       = Normal (0%float, s))
  ∧ (covariance (Array [1%float]) undefined s = Normal (0%float, s)
     ∧ correlation (Array [1%float]) undefined s = Normal (0%float, s)).
Proof.
  intros s. split; [|split];
    apply invalid_association_changes_nothing; reflexivity.
Defined.

(** ** Assignment *)

Lemma heap_set_data_fields (p : Heap.pointer) (h : Heap.heap) (e : Heap.engine) :
  Heap.fields (Heap.set_data p h e).2
  = set_data (Heap.deref h p) (Heap.fields e).
Proof.
  unfold Heap.set_data. destruct (Heap.deref h p) as [| |a]; try done.
  simpl. by destruct (length a =? 0)%nat.
Qed.

Lemma heap_fresh_unbound (h : Heap.heap) : h !! fresh (dom h) = None.
Proof. apply not_elem_of_dom. apply is_fresh. Qed.

(** C2: an assignment of an absent, null or empty array changes nothing,
    so [samples] is what it was; any other assignment stores a new
    array with the elements of the input, and [samples] is then the
    length of the input.  The new array is an object of its own: its
    address was unused before the call, every array that existed keeps
    its contents, and a later write of the caller to any of those
    arrays leaves the stored sample as it is. *)
Theorem assignment_contract
  (p : Heap.pointer) (h : Heap.heap) (e : Heap.engine) :
  Heap.owns h e →
  let h' := (Heap.set_data p h e).1 in
  let e' := (Heap.set_data p h e).2 in
  Heap.owns h' e'
  ∧ Heap.fields e' = set_data (Heap.deref h p) (Heap.fields e)
  ∧ (Heap.deref h p = undefined ∨ Heap.deref h p = null
     ∨ Heap.deref h p = Array [] →
     h' = h ∧ e' = e
     ∧ samples (Heap.fields e') = samples (Heap.fields e))
  ∧ (∀ a, Heap.deref h p = Array a → a ≠ [] →
     samples (Heap.fields e') = length a
     ∧ _data (Heap.fields e') = a
     ∧ h !! Heap.data_ref e' = None
     ∧ (∀ l, is_Some (h !! l) → h' !! l = h !! l)
     ∧ (∀ l i v, is_Some (h !! l) → Heap.owns (Heap.write l i v h') e')).
Proof.
  intros Hown h' e'. split; [|split; [|split]].
  - subst h' e'. unfold Heap.set_data.
    destruct (Heap.deref h p) as [| |a]; try done.
    destruct a as [|x rest]; [done|].
    cbn [length Nat.eqb fst snd]. unfold Heap.owns.
    cbn [Heap.fields Heap.data_ref]. rewrite lookup_insert_eq.
    by rewrite set_data_Array, slice_all_id.
  - apply heap_set_data_fields.
  - subst h' e'. unfold Heap.set_data. by intros [->|[->| ->]].
  - intros a Ha Hne. subst h' e'. unfold Heap.set_data. rewrite Ha.
    destruct a as [|x rest]; [done|].
    cbn [length Nat.eqb fst snd Heap.fields Heap.data_ref].
    assert (∀ l, is_Some (h !! l) → l ≠ fresh (dom h)) as Hfresh.
    { intros l [b Hl] ->. by rewrite heap_fresh_unbound in Hl. }
    rewrite set_data_Array by done. unfold samples.
    cbn [_data]. split; [done|]. split; [done|].
    split; [apply heap_fresh_unbound|]. split.
    + intros l Hl. apply lookup_insert_ne. intros Heq.
      by apply (Hfresh l Hl).
    + intros l i v Hl. unfold Heap.owns, Heap.write.
      cbn [Heap.fields Heap.data_ref _data].
      rewrite lookup_alter_ne by (by apply Hfresh).
      rewrite lookup_insert_eq. by rewrite slice_all_id.
Qed.

Lemma assignment_contract_witness :
  let h : Heap.heap := {[ 1%positive := []; 2%positive := [5; 6]%float ]} in
  let e := {| Heap.data_ref := 1%positive; Heap.fields := constructor |} in
  samples (Heap.fields (Heap.set_data (Heap.Ref 2%positive) h e).2) = 2%nat
  ∧ (Heap.set_data Heap.Null h e).2 = e.
Proof.
  intros h e.
  assert (Heap.owns h e) as Hown by reflexivity.
  split.
  - destruct (assignment_contract (Heap.Ref 2%positive) h e Hown)
      as (_ & _ & _ & H).
    by destruct (H [5; 6]%float eq_refl) as [Hn _].
  - destruct (assignment_contract Heap.Null h e Hown) as (_ & _ & H & _).
    destruct H as (_ & He & _); [by right; left|done].
Defined.

(** ** The caches of the extremes *)

Lemma min_flags (s : t) :
  _minInvalidated (min s).2 = _minInvalidated s
  ∧ _data (min s).2 = _data s.
Proof.
  unfold min. destruct (length (_data s) =? 0)%nat; [by split|].
  by destruct (_minInvalidated s) eqn:Hf.
Qed.

Lemma max_flags (s : t) :
  _maxInvalidated (max s).2 = _maxInvalidated s
  ∧ _data (max s).2 = _data s.
Proof.
  unfold max. destruct (length (_data s) =? 0)%nat; [by split|].
  by destruct (_maxInvalidated s) eqn:Hf.
Qed.

(** The four other cached accessors do lower their flag. *)
Lemma mean_validates (s : t) :
  _data s ≠ [] → _meanInvalidated (mean s).2 = false.
Proof.
  intros Hd. unfold mean. destruct (_meanInvalidated s) eqn:Hf; [|done].
  by destruct (_data s).
Qed.

Lemma std_validates (s : t) :
  length (_data s) ≠ 1%nat → _stdInvalidated (std s).2 = false.
Proof.
  intros Hd. unfold std. destruct (_stdInvalidated s) eqn:Hf; [|done].
  destruct (length (_data s) =? 1)%nat eqn:Hn.
  - by apply Nat.eqb_eq in Hn.
  - by destruct (welford_loop (_data s)).
Qed.

Lemma median_validates (s : t) :
  _data s ≠ [] → _medianInvalidated (median s).2 = false.
Proof.
  intros Hd. unfold median. destruct (_medianInvalidated s) eqn:Hf; [|done].
  by destruct (_data s).
Qed.

Lemma mode_validates (s : t) :
  _data s ≠ [] → _modeInvalidated (mode s).2 = false.
Proof.
  intros Hd. unfold mode. destruct (_modeInvalidated s) eqn:Hf; [|done].
  destruct (_data s) as [|x rest] eqn:Hdata; [done|].
  cbn [length Nat.eqb].
  by destruct (mode_scan _ _ _).
Qed.

(** C1 (what the code does): [min] and [max] never lower their flag.
    For every engine the flag after the query is the flag before it, so
    after an assignment each query of [min] or [max] finds the flag up
    and scans the sample again; after assigning [3, 1, 2] the queries
    return 1 and 3 and both flags are still up. *)
Theorem min_max_flags_stay_up :
  (∀ s, _minInvalidated (min s).2 = _minInvalidated s
        ∧ _maxInvalidated (max s).2 = _maxInvalidated s)
  ∧ (let s := set_data (Array [3; 1; 2]%float) constructor in
     (min s).1 = 1%float ∧ _minInvalidated (min s).2 = true
     ∧ (max s).1 = 3%float ∧ _maxInvalidated (max s).2 = true).
Proof.
  split.
  - intros s. split; [apply min_flags|apply max_flags].
  - vm_compute. done.
Qed.

(** C3 (what the code does): the scan of [max] starts from
    [Number.MIN_VALUE], the least positive number, so for a sample
    without a positive element [max] returns that constant while the
    five-number summary ends in the greatest element.  For [[-1]] and
    for [[-5, -2, -9]] the summary ends in -1 and -2 and [max] is
    [MIN_VALUE]; the first entry does agree with [min]. *)
Theorem max_of_nonpositive_sample :
  (let s := set_data (Array [(-1)%float]) constructor in
   fiveNumbers s !! 4%nat = Some (-1)%float
   ∧ (max s).1 = MIN_VALUE
   ∧ fiveNumbers s !! 0%nat = Some (min s).1)
  ∧ (let s := set_data (Array [-5; -2; -9]%float) constructor in
     fiveNumbers s !! 4%nat = Some (-2)%float
     ∧ (max s).1 = MIN_VALUE
     ∧ fiveNumbers s !! 0%nat = Some (min s).1)
  ∧ PrimFloat.eqb MIN_VALUE (-1)%float = false
  ∧ PrimFloat.eqb MIN_VALUE (-2)%float = false.
Proof. vm_compute. done. Qed.

(** ** The array [f] of [getQuantile] *)

Lemma sparse_set_keeps_hole (f : sparse) (i : nat) (x : number) :
  (0 < i)%nat → f !! 0%nat = Some None →
  sparse_set f i x !! 0%nat = Some None.
Proof.
  intros Hi Hf. unfold sparse_set.
  destruct (i <? length f)%nat.
  - rewrite list_lookup_insert_ne by lia. done.
  - by rewrite lookup_app_l by (destruct f; [done|simpl; lia]).
Qed.

Lemma quantile_fractions_hole (n : nat) :
  (3 ≤ n)%nat → sparse_get (quantile_fractions n) 0 = None.
Proof.
  intros Hn. unfold quantile_fractions, sparse_get, sparse_push, for_loop.
  destruct n as [|[|[|n]]]; try lia.
  replace (S (S (S n)) - 1 - 1)%nat with (S n) by lia.
  cbn [seq foldl].
  set (n1 := (1 / (of_nat (S (S (S n))) - 1))%float).
  set (f1 := sparse_set [] 1 _).
  assert (f1 !! 0%nat = Some None) as Hf1 by reflexivity.
  clearbody f1.
  assert (∀ l f, f !! 0%nat = Some None → Forall (λ i, 0 < i)%nat l →
            foldl (λ acc i,
                     sparse_set acc i
                       (ToNumber (sparse_get acc (i - 1)) + n1)%float) f l
              !! 0%nat = Some None) as Hloop.
  { induction l as [|i l IH]; intros f Hf Hl; [done|].
    simpl. apply IH; [|by inversion Hl].
    apply sparse_set_keeps_hole; [by inversion Hl|done]. }
  rewrite lookup_app_l.
  - rewrite Hloop; [done|done|].
    apply Forall_forall. intros i Hi%list_elem_of_In%in_seq. lia.
  - apply lookup_lt_is_Some. rewrite Hloop; [done|done|].
    apply Forall_forall. intros i Hi%list_elem_of_In%in_seq. lia.
Qed.

(** C4 (what the code does): [new Array<number>(0.0)] makes an array of
    length 0, not an array holding 0.  For three samples or more [f[0]]
    is a hole, so the interior entries of [f] are NaN and every interior
    quantile is NaN: for the sample [[1, 2, 3]] the array [f] is
    [[hole, NaN, 1]] and [getQuantile(0.5)] is [[1, NaN, 3]]; for five
    samples the quartiles are [[10, NaN, NaN, NaN, 50]]; for two samples
    [f] is [[1]] and the median quantile is NaN again. *)
Theorem quantile_fractions_start_from_hole :
  (∀ n, (3 ≤ n)%nat → sparse_get (quantile_fractions n) 0 = None)
  ∧ quantile_fractions 3 = [None; Some PrimFloat.nan; Some 1%float]
  ∧ getQuantile (Some 0.5%float)
      (set_data (Array [1; 2; 3]%float) constructor)
    = [Some 1%float; Some PrimFloat.nan; Some 3%float]
  ∧ getQuantile (Some 0.25%float)
      (set_data (Array [10; 20; 30; 40; 50]%float) constructor)
    = [Some 10%float; Some PrimFloat.nan; Some PrimFloat.nan;
       Some PrimFloat.nan; Some 50%float]
  ∧ quantile_fractions 2 = [Some 1%float]
  ∧ getQuantile (Some 0.5%float) (set_data (Array [4; 8]%float) constructor)
    = [Some 4%float; Some PrimFloat.nan; Some 8%float].
Proof.
  split; [apply quantile_fractions_hole|]. vm_compute. done.
Qed.

(** ** Symmetry of the covariance *)

(** Multiplication of binary64 numbers is commutative. *)
Lemma number_mul_comm (a b : number) : (a * b = b * a)%float.
Proof.
  apply Prim2SF_inj. rewrite !mul_spec.
  destruct (Prim2SF a) as [sa|sa| |sa ma ea], (Prim2SF b) as [sb|sb| |sb mb eb];
    simpl; try reflexivity; rewrite ?(xorb_comm sa sb); try reflexivity.
  unfold SF64mul, SFmul.
  by rewrite (Pos.mul_comm ma mb), (Z.add_comm ea eb).
Qed.

Lemma valid_inputs_sym (x y : reference) :
  valid_inputs x y = valid_inputs y x.
Proof.
  destruct x as [| |xa], y as [| |ya]; try done. unfold valid_inputs.
  destruct (length xa =? length ya)%nat eqn:Hxy.
  - apply Nat.eqb_eq in Hxy. rewrite Hxy, Nat.eqb_refl. done.
  - rewrite !andb_false_r. symmetry. rewrite Nat.eqb_sym. by rewrite Hxy, andb_false_r.
Qed.

(** C10: [covariance] is symmetric in its arguments: whatever the
    engine held before either call, [covariance(x, y)] and
    [covariance(y, x)] return the same number.  The validity check
    accepts both orders or neither, and the sums of centred products
    agree term by term because multiplication is commutative. *)
Theorem covariance_symmetric (x y : reference) (s s' : t) :
  fst <$> covariance x y s = fst <$> covariance y x s'.
Proof.
  destruct (valid_inputs x y) eqn:Hv.
  - pose proof Hv as Hv'. rewrite valid_inputs_sym in Hv'.
    destruct x as [| |xa], y as [| |ya]; try done.
    destruct (covariance_valid xa ya s Hv) as (s1 & -> & _ & _).
    destruct (covariance_valid ya xa s' Hv') as (s2 & -> & _ & _).
    apply andb_true_iff in Hv as [_ Hlen%Nat.eqb_eq].
    cbn [fmap completion_fmap fst]. rewrite Hlen. do 2 f_equal.
    unfold for_loop. apply foldl_pointwise.
    intros sum i _. f_equal. apply number_mul_comm.
  - pose proof Hv as Hv'. rewrite valid_inputs_sym in Hv'.
    by rewrite !covariance_invalid.
Qed.

(** ** Welford's recurrence *)

Lemma welford_loop_from (pre l : list number) (m s : number) :
  foldl
    (λ '(m, s) i,
       let m_old := m in
       let d := (ToNumber (elem (pre ++ l) i) - m_old)%float in
       let m := (m + d / of_nat (i + 1))%float in
       let s := (s + (ToNumber (elem (pre ++ l) i) - m) * d)%float in
       (m, s))
    (m, s) (seq (length pre) (length l))
  = welford_from (length pre) m s l.
Proof.
  revert pre m s. induction l as [|x l IH]; intros pre m s; [done|].
  cbn [length seq foldl welford_from].
  assert (elem (pre ++ x :: l) (length pre) = Some x) as Helem
    by (unfold elem; by rewrite list_lookup_middle).
  rewrite !Helem. change (ToNumber (Some x)) with x.
  specialize (IH (pre ++ [x])). rewrite <- (assoc_L _ pre [x] l) in IH.
  rewrite length_app in IH. cbn [length app] in IH.
  rewrite Nat.add_1_r in IH. rewrite <- IH. reflexivity.
Qed.

Lemma welford_loop_spec (data : array) : welford_loop data = welford data.
Proof.
  unfold welford_loop, welford, for_loop. rewrite Nat.sub_0_r.
  pose proof (welford_loop_from [] data 0%float 0%float) as H.
  cbn [app length] in H. rewrite <- H. apply foldl_pointwise.
  by intros [m s] i _.
Qed.

(** ** The count table of [mode] *)

Lemma foldl_seq_elems {A} (g : A → number → A) (pre l : array) (init : A) :
  foldl (λ acc i, g acc (ToNumber (elem (pre ++ l) i))) init
    (seq (length pre) (length l))
  = foldl g init l.
Proof.
  revert pre init. induction l as [|x l IH]; intros pre init; [done|].
  cbn [length seq foldl].
  assert (elem (pre ++ x :: l) (length pre) = Some x) as ->
    by (unfold elem; by rewrite list_lookup_middle).
  change (ToNumber (Some x)) with x.
  specialize (IH (pre ++ [x])). rewrite <- (assoc_L _ pre [x] l) in IH.
  rewrite length_app in IH. cbn [length app] in IH.
  rewrite Nat.add_1_r in IH. apply IH.
Qed.

Lemma for_loop_elems {A} (g : A → number → A) (l : array) (init : A) :
  for_loop 0 (length l) (λ i acc, g acc (ToNumber (elem l i))) init
  = foldl g init l.
Proof.
  unfold for_loop. rewrite Nat.sub_0_r. apply (foldl_seq_elems g [] l).
Qed.

Lemma count_table_foldl (data : array) :
  count_table data = foldl count_key [] (key <$> data).
Proof.
  unfold count_table. rewrite foldl_fmap.
  apply (for_loop_elems (λ hash x, count_key hash (Number_toString x))).
Qed.

Lemma get_set_eq (o : object) (k : string) (v : Z) :
  get (set o k v) k = Some v.
Proof.
  induction o as [|[k' v'] o IH]; simpl.
  - by rewrite bool_decide_true.
  - case_bool_decide as Hk; simpl.
    + by rewrite bool_decide_true.
    + by rewrite bool_decide_false.
Qed.

Lemma get_set_ne (o : object) (k k' : string) (v : Z) :
  k ≠ k' → get (set o k v) k' = get o k'.
Proof.
  intros Hne. induction o as [|[k0 v0] o IH]; simpl.
  - by rewrite bool_decide_false.
  - case_bool_decide as Hk; simpl.
    + subst k0. by rewrite !bool_decide_false.
    + by rewrite IH.
Qed.

Lemma get_notin (o : object) (k : string) : k ∉ o.*1 → get o k = None.
Proof.
  induction o as [|[k0 v0] o IH]; [done|]. simpl.
  rewrite not_elem_of_cons. intros [Hne Hk].
  rewrite bool_decide_false by done. by apply IH.
Qed.

Lemma get_in (o : object) (k : string) : k ∈ o.*1 → is_Some (get o k).
Proof.
  induction o as [|[k0 v0] o IH]; simpl.
  - by intros ?%elem_of_nil.
  - intros Hk. case_bool_decide as Heq; [by eexists|].
    apply IH. apply elem_of_cons in Hk as [Hk|Hk]; [by subst|done].
Qed.

Lemma keys_set_in (o : object) (k : string) (v : Z) :
  k ∈ o.*1 → (set o k v).*1 = o.*1.
Proof.
  induction o as [|[k0 v0] o IH]; simpl.
  - by intros ?%elem_of_nil.
  - intros Hk. case_bool_decide as Heq; simpl; [done|].
    f_equal. apply IH. apply elem_of_cons in Hk as [Hk|Hk]; [by subst|done].
Qed.

Lemma keys_set_notin (o : object) (k : string) (v : Z) :
  k ∉ o.*1 → (set o k v).*1 = o.*1 ++ [k].
Proof.
  induction o as [|[k0 v0] o IH]; [done|]. simpl.
  rewrite not_elem_of_cons. intros [Hne Hk].
  rewrite bool_decide_false by done. simpl. f_equal. by apply IH.
Qed.

Lemma occurrences_snoc (k k0 : string) (ks : list string) :
  occurrences k (ks ++ [k0])
  = (occurrences k ks + if bool_decide (k0 = k) then 1 else 0)%nat.
Proof.
  unfold occurrences. rewrite filter_app, length_app. f_equal.
  rewrite filter_cons, filter_nil. case_bool_decide; by case_decide.
Qed.

Lemma occurrences_pos (k : string) (ks : list string) :
  k ∈ ks → (0 < occurrences k ks)%nat.
Proof.
  intros Hk. unfold occurrences.
  assert (k ∈ filter (λ k', k' = k) ks) as Hin
    by (by apply list_elem_of_filter).
  destruct (filter _ ks); [by apply elem_of_nil in Hin|simpl; lia].
Qed.

Lemma occurrences_zero (k : string) (ks : list string) :
  k ∉ ks → occurrences k ks = 0%nat.
Proof.
  intros Hk. unfold occurrences.
  destruct (filter (λ k', k' = k) ks) as [|k1 l] eqn:Hf; [done|].
  assert (k1 ∈ filter (λ k', k' = k) ks) as Hin by (rewrite Hf; left).
  apply list_elem_of_filter in Hin as [-> Hin]. done.
Qed.

Lemma counted_snoc (ks : list string) (hash : object) (k0 : string) :
  counted ks hash → counted (ks ++ [k0]) (count_key hash k0).
Proof.
  intros (Hnd & Hkeys & Hget & Hord). unfold count_key, hasOwnProperty.
  case_bool_decide as Hin.
  - (* the key is known: its count goes up, the keys stay *)
    pose proof (proj1 (Hkeys k0) Hin) as Hin'.
    rewrite (Hget k0 Hin'). cbn [default from_option id].
    split; [by rewrite keys_set_in|]. split; [|split].
    + intros k. rewrite keys_set_in by done. rewrite elem_of_app, Hkeys.
      rewrite list_elem_of_singleton. split; [by left|by intros [?| ->]].
    + intros k Hk. rewrite occurrences_snoc.
      destruct (decide (k0 = k)) as [->|Hne].
      * rewrite get_set_eq, bool_decide_true by done. f_equal. lia.
      * rewrite get_set_ne, bool_decide_false by done.
        rewrite Nat.add_0_r. apply Hget.
        apply elem_of_app in Hk as [Hk|Hk%list_elem_of_singleton]; [done|].
        by subst.
    + intros before k after Hsplit. rewrite keys_set_in in Hsplit by done.
      destruct (Hord before k after Hsplit) as (pre & post & -> & Hpre).
      exists pre, (post ++ [k0]). split; [|done].
      by rewrite <- (assoc_L _ pre), <- app_comm_cons.
  - (* a new key: it is appended with count 1 *)
    assert (k0 ∉ ks) as Hin' by (by rewrite <- Hkeys).
    split; [|split; [|split]].
    + rewrite keys_set_notin by done. apply NoDup_app. split; [done|].
      split; [|apply NoDup_singleton].
      intros k Hk ->%list_elem_of_singleton. done.
    + intros k. rewrite keys_set_notin by done.
      rewrite !elem_of_app, Hkeys. done.
    + intros k Hk. rewrite occurrences_snoc.
      destruct (decide (k0 = k)) as [->|Hne].
      * rewrite get_set_eq, bool_decide_true by done.
        by rewrite occurrences_zero.
      * rewrite get_set_ne, bool_decide_false by done.
        rewrite Nat.add_0_r. apply Hget.
        apply elem_of_app in Hk as [Hk|Hk%list_elem_of_singleton]; [done|].
        by subst.
    + intros before k after Hsplit. rewrite keys_set_notin in Hsplit by done.
      destruct after as [|k1 after _] using rev_ind.
      * apply app_inj_tail in Hsplit as [<- <-].
        exists ks, []. split; [done|]. intros k'. apply Hkeys.
      * rewrite app_comm_cons, (assoc_L _ before) in Hsplit.
        apply app_inj_tail in Hsplit as [Hsplit <-].
        destruct (Hord before k after Hsplit) as (pre & post & -> & Hpre).
        exists pre, (post ++ [k0]). split; [|done].
        by rewrite <- (assoc_L _ pre), <- app_comm_cons.
Qed.

Lemma counted_table (data : array) :
  counted (key <$> data) (count_table data).
Proof.
  rewrite count_table_foldl. generalize (key <$> data). intros ks.
  induction ks as [|k0 ks IH] using rev_ind.
  - split; [apply NoDup_nil_2|]. split; [done|]. split.
    + by intros k ?%elem_of_nil.
    + intros before k after Hsplit. by destruct before.
  - rewrite foldl_snoc. by apply counted_snoc.
Qed.

(** ** The enumeration order of the table *)

Lemma array_index_pretty (k : string) (n : N) :
  array_index k = Some n → pretty n = k.
Proof.
  unfold array_index. destruct (leading_digits 10 k None) as [z|]; [|done].
  simpl. destruct (bool_decide (pretty (Z.to_N z) = k)) eqn:Hp; [|done].
  apply bool_decide_eq_true in Hp. simpl.
  destruct (Z.to_N z <? 2 ^ 32 - 1)%N; [|done]. by intros [= <-].
Qed.

Lemma insert_asc_elem (n x : N) (l : list N) :
  x ∈ insert_asc n l ↔ x = n ∨ x ∈ l.
Proof.
  induction l as [|m l IH]; simpl.
  - rewrite list_elem_of_singleton, elem_of_nil. tauto.
  - destruct (n <=? m)%N.
    + by rewrite elem_of_cons.
    + rewrite !elem_of_cons, IH. tauto.
Qed.

Lemma sort_asc_elem (x : N) (l : list N) : x ∈ sort_asc l ↔ x ∈ l.
Proof.
  unfold sort_asc. induction l as [|n l IH]; [done|]. simpl.
  by rewrite insert_asc_elem, elem_of_cons, IH.
Qed.

Lemma insert_asc_sorted (n : N) (l : list N) :
  StronglySorted N.le l → StronglySorted N.le (insert_asc n l).
Proof.
  induction l as [|m l IH]; intros Hl; simpl.
  - by repeat constructor.
  - apply StronglySorted_cons in Hl as [Hm Hl].
    destruct (n <=? m)%N eqn:Hnm.
    + apply N.leb_le in Hnm. constructor; [by constructor|].
      constructor; [done|].
      eapply Forall_impl; [exact Hm|]. intros y Hy. simpl in Hy. lia.
    + apply N.leb_gt in Hnm. constructor; [by apply IH|].
      apply Forall_forall. intros y [->|Hy]%insert_asc_elem; [lia|].
      by eapply Forall_forall in Hm.
Qed.

Lemma sort_asc_sorted (l : list N) : StronglySorted N.le (sort_asc l).
Proof.
  unfold sort_asc. induction l as [|n l IH]; simpl; [constructor|].
  by apply insert_asc_sorted.
Qed.

Lemma filter_split {A} (P : A → Prop) `{!∀ x, Decision (P x)}
  (l l1 l2 : list A) (x : A) :
  filter P l = l1 ++ x :: l2 →
  ∃ before after,
    l = before ++ x :: after ∧ filter P before = l1 ∧ filter P after = l2.
Proof.
  revert l1. induction l as [|y l IH]; intros l1 Hf.
  - by destruct l1.
  - rewrite filter_cons in Hf. destruct (decide (P y)) as [Hy|Hy].
    + destruct l1 as [|z l1]; simplify_eq/=.
      * exists [], l. by rewrite filter_nil.
      * destruct (IH l1) as (before & after & -> & <- & <-); [done|].
        exists (z :: before), after. by rewrite filter_cons_True.
    + destruct (IH l1 Hf) as (before & after & -> & <- & <-).
      exists (y :: before), after. by rewrite filter_cons_False.
Qed.

Lemma own_keys_elem (hash : object) (k : string) :
  k ∈ own_keys hash ↔ k ∈ hash.*1.
Proof.
  unfold own_keys. rewrite elem_of_app, list_elem_of_fmap, list_elem_of_filter.
  split.
  - intros [(n & -> & Hn)|[_ Hk]]; [|done].
    apply sort_asc_elem, list_elem_of_omap in Hn as (k0 & Hk0 & Hidx).
    by rewrite (array_index_pretty _ _ Hidx).
  - intros Hk. destruct (array_index k) as [n|] eqn:Hidx; [left|by right].
    exists n. split; [by rewrite (array_index_pretty _ _ Hidx)|].
    apply sort_asc_elem, list_elem_of_omap. eauto.
Qed.

(** A key enumerated after another one comes after it in the order the
    table defines. *)
Lemma own_keys_order (ks : list string) (hash : object)
  (pre post : list string) (k k' : string) :
  counted ks hash →
  own_keys hash = pre ++ k :: post →
  k' ∈ post → k' ∉ pre → k' ≠ k →
  enumerated_before ks k k'.
Proof.
  intros (_ & _ & _ & Hord) Hsplit Hpost Hpre Hne.
  unfold own_keys in Hsplit. unfold enumerated_before.
  set (sorted := sort_asc (omap array_index hash.*1)) in *.
  set (others := filter (λ k, array_index k = None) hash.*1) in *.
  assert (∀ x, x ∈ others → array_index x = None) as Hothers.
  { intros x Hx. by apply list_elem_of_filter in Hx as [? _]. }
  assert (∀ x, x ∈ pretty <$> sorted → ∃ n, array_index x = Some n ∧ n ∈ sorted)
    as Hsorted.
  { intros x (n & -> & Hn)%list_elem_of_fmap. exists n. split; [|done].
    apply sort_asc_elem, list_elem_of_omap in Hn as (k0 & _ & Hidx).
    by rewrite (array_index_pretty _ _ Hidx). }
  apply app_eq_inv in Hsplit as [(l & Hl1 & Hl2)|(l & Hl1 & Hl2)].
  - destruct l as [|k0 l]; [|injection Hl2 as <- ->]; cbn [app] in *.
    + (* [k] heads the other keys *)
      assert (array_index k = None) as Hk by (apply Hothers; rewrite <- Hl2; left).
      assert (array_index k' = None) as Hk'
        by (apply Hothers; rewrite <- Hl2; by right).
      rewrite Hk, Hk'. symmetry in Hl2. subst others.
      apply (filter_split _ _ []) in Hl2
        as (before & after & Hkeys & Hbefore & _).
      destruct (Hord before k after Hkeys) as (pre' & post' & -> & Hpre').
      exists pre', post'. split; [done|]. intros Hin.
      assert (k' ∈ filter (λ k, array_index k = None) before) as Hf
        by (apply list_elem_of_filter; split; [done|by apply Hpre']).
      rewrite Hbefore in Hf. by apply elem_of_nil in Hf.
    + (* [k] lies among the array indices *)
      destruct (Hsorted k) as (i & Hi & _).
      { rewrite Hl1. apply elem_of_app. right. left. }
      rewrite Hi. destruct (array_index k') as [j|] eqn:Hj; [|done].
      assert (k' ∈ l) as Hl.
      { apply elem_of_app in Hpost as [Hpost|Hpost]; [done|].
        apply Hothers in Hpost. congruence. }
      apply fmap_app_inv in Hl1 as (s1 & s2 & -> & Hs2 & Hs).
      symmetry in Hs2. apply fmap_cons_inv in Hs2 as (i' & s3 & -> & -> & ->).
      apply list_elem_of_fmap in Hl as (j' & -> & Hj').
      pose proof (sort_asc_sorted (omap array_index hash.*1)) as Hss.
      fold sorted in Hss. rewrite Hs in Hss.
      apply StronglySorted_app_1_r, StronglySorted_cons in Hss as [Hss _].
      eapply Forall_forall in Hss; [|exact Hj'].
      assert (i' = i).
      { destruct (Hsorted (pretty i')) as (n & Hn & _).
        { rewrite Hs. rewrite fmap_app, fmap_cons.
          apply elem_of_app. right. left. }
        apply array_index_pretty in Hn as Hp. apply (inj pretty) in Hp.
        congruence. }
      assert (j' = j).
      { pose proof (array_index_pretty _ _ Hj) as Hp.
        by apply (inj pretty) in Hp. }
      subst i' j'. assert (i ≠ j) by congruence. lia.
  - (* [k] lies among the other keys *)
    assert (array_index k = None) as Hk.
    { apply Hothers. rewrite Hl2. apply elem_of_app. right. left. }
    assert (array_index k' = None) as Hk'.
    { apply Hothers. rewrite Hl2. apply elem_of_app. right. by right. }
    rewrite Hk, Hk'. subst others.
    apply filter_split in Hl2 as (before & after & Hkeys & Hbefore & _).
    destruct (Hord before k after Hkeys) as (pre' & post' & -> & Hpre').
    exists pre', post'. split; [done|]. intros Hin. apply Hpre.
    rewrite Hl1. apply elem_of_app. right. rewrite <- Hbefore.
    apply list_elem_of_filter. split; [done|]. by apply Hpre'.
Qed.

(** ** The scan for the greatest count *)

Lemma mode_scan_cons (hash : object) (k : string) (keys : list string)
  (count : Z) (mode : number) :
  mode_scan hash (k :: keys) (count, mode)
  = mode_scan hash keys
      match get hash k with
      | Some c => if (count <? c)%Z then (c, parseInt k) else (count, mode)
      | None => (count, mode)
      end.
Proof. reflexivity. Qed.

(** The scan stops at the first key whose count no other key exceeds. *)
Lemma mode_scan_first_max (hash : object) (keys : list string)
  (count : Z) (mode : number) :
  (mode_scan hash keys (count, mode) = (count, mode)
   ∧ ∀ k c, k ∈ keys → get hash k = Some c → (c ≤ count)%Z)
  ∨ (∃ pre k post c,
       keys = pre ++ k :: post ∧ get hash k = Some c
       ∧ mode_scan hash keys (count, mode) = (c, parseInt k)
       ∧ (count < c)%Z
       ∧ (∀ k' c', k' ∈ pre → get hash k' = Some c' → (c' < c)%Z)
       ∧ (∀ k' c', k' ∈ post → get hash k' = Some c' → (c' ≤ c)%Z)).
Proof.
  revert count mode. induction keys as [|k0 keys IH]; intros count mode.
  - left. split; [done|]. by intros k c ?%elem_of_nil.
  - rewrite mode_scan_cons.
    destruct (get hash k0) as [c0|] eqn:Hc0;
      [destruct (count <? c0)%Z eqn:Hlt;
       [apply Z.ltb_lt in Hlt|apply Z.ltb_ge in Hlt]|].
    + destruct (IH c0 (parseInt k0))
        as [[Hsame Hle]|(pre & k & post & c & -> & Hc & Hres & Hlt' & Hpre & Hpost)].
      * right. exists [], k0, keys, c0. repeat split; try done.
        by intros k' c' ?%elem_of_nil.
      * right. exists (k0 :: pre), k, post, c. repeat split; try done; [lia|].
        intros k' c' [->|Hin]%elem_of_cons Hc'; [|by eapply Hpre].
        assert (c' = c0) by congruence. lia.
    + destruct (IH count mode)
        as [[Hsame Hle]|(pre & k & post & c & -> & Hc & Hres & Hlt' & Hpre & Hpost)].
      * left. split; [done|].
        intros k c [->|Hin]%elem_of_cons Hc; [|by eapply Hle].
        assert (c = c0) by congruence. lia.
      * right. exists (k0 :: pre), k, post, c. repeat split; try done.
        intros k' c' [->|Hin]%elem_of_cons Hc'; [|by eapply Hpre].
        assert (c' = c0) by congruence. lia.
    + destruct (IH count mode)
        as [[Hsame Hle]|(pre & k & post & c & -> & Hc & Hres & Hlt' & Hpre & Hpost)].
      * left. split; [done|].
        intros k c [->|Hin]%elem_of_cons Hc; [congruence|by eapply Hle].
      * right. exists (k0 :: pre), k, post, c. repeat split; try done.
        intros k' c' [->|Hin]%elem_of_cons Hc'; [congruence|by eapply Hpre].
Qed.

(** Unless no key beats the starting count, the scan forgets the value
    [_mode] had before. *)
Lemma mode_scan_forgets (hash : object) (keys : list string)
  (count : Z) (m m' : number) :
  (mode_scan hash keys (count, m) = (count, m)
   ∧ mode_scan hash keys (count, m') = (count, m'))
  ∨ mode_scan hash keys (count, m) = mode_scan hash keys (count, m').
Proof.
  revert count m m'. induction keys as [|k0 keys IH]; intros count m m'.
  - by left.
  - rewrite !mode_scan_cons. destruct (get hash k0) as [c0|]; [|apply IH].
    destruct (count <? c0)%Z; [by right|apply IH].
Qed.

Lemma count_table_scan (data : array) (m : number) :
  data ≠ [] →
  ∃ pre k post,
    own_keys (count_table data) = pre ++ k :: post
    ∧ k ∈ key <$> data
    ∧ mode_scan (count_table data) (own_keys (count_table data)) ((-1)%Z, m)
      = (Z.of_nat (occurrences k (key <$> data)), parseInt k)
    ∧ (∀ k', k' ∈ pre →
         (occurrences k' (key <$> data) < occurrences k (key <$> data))%nat)
    ∧ (∀ k', k' ∈ key <$> data →
         (occurrences k' (key <$> data) ≤ occurrences k (key <$> data))%nat).
Proof.
  intros Hdata. pose proof (counted_table data) as Hc.
  destruct Hc as (Hnd & Hkeys & Hget & Hord).
  set (ks := key <$> data) in *. set (hash := count_table data) in *.
  assert (∀ k, k ∈ own_keys hash → k ∈ ks) as Hown.
  { intros k Hk. by apply Hkeys, own_keys_elem. }
  destruct (mode_scan_first_max hash (own_keys hash) (-1) m)
    as [[_ Hle]|(pre & k & post & c & Hsplit & Hk & Hres & _ & Hpre & Hpost)].
  - (* some key has been counted, so the scan cannot come back empty *)
    destruct data as [|x data]; [done|].
    assert (key x ∈ ks) as Hx by (subst ks; rewrite fmap_cons; left).
    assert (key x ∈ own_keys hash) as Hx' by (by apply own_keys_elem, Hkeys).
    specialize (Hle _ _ Hx' (Hget _ Hx)). lia.
  - assert (k ∈ ks) as Hkin.
    { apply Hown. rewrite Hsplit. apply elem_of_app. right. left. }
    rewrite (Hget k Hkin) in Hk. injection Hk as <-.
    exists pre, k, post. split; [done|]. split; [done|]. split; [done|].
    split.
    + intros k' Hk'.
      assert (k' ∈ ks) as Hk'in.
      { apply Hown. rewrite Hsplit. apply elem_of_app. by left. }
      specialize (Hpre k' _ Hk' (Hget k' Hk'in)). lia.
    + intros k' Hk'in.
      assert (k' ∈ own_keys hash) as Hk' by (by apply own_keys_elem, Hkeys).
      rewrite Hsplit in Hk'.
      apply elem_of_app in Hk' as [Hk'|[->|Hk']%elem_of_cons].
      * specialize (Hpre k' _ Hk' (Hget k' Hk'in)). lia.
      * done.
      * specialize (Hpost k' _ Hk' (Hget k' Hk'in)). lia.
Qed.

Lemma mode_scan_init (data : array) (m : number) :
  data ≠ [] →
  (mode_scan (count_table data) (own_keys (count_table data)) ((-1)%Z, m)).2
  = mode_of data.
Proof.
  intros Hdata. unfold mode_of.
  destruct (mode_scan_forgets (count_table data)
              (own_keys (count_table data)) (-1) m 0%float)
    as [[Hm _]| ->]; [|done].
  destruct (count_table_scan data m Hdata) as (_ & k & _ & _ & _ & Hres & _).
  rewrite Hres in Hm. injection Hm as Hm _. lia.
Qed.

(** ** The caches along a history *)

Lemma caches_valid_same (s s' : t) :
  _data s' = _data s →
  _std s' = _std s → _stdInvalidated s' = _stdInvalidated s →
  _mode s' = _mode s → _modeInvalidated s' = _modeInvalidated s →
  caches_valid s → caches_valid s'.
Proof. unfold caches_valid. by intros -> -> -> -> ->. Qed.

Lemma set_data_valid (d : reference) (s : t) :
  caches_valid s → caches_valid (set_data d s).
Proof.
  intros Hs. destruct d as [| |a]; try done. unfold set_data.
  by destruct (length a =? 0)%nat.
Qed.

Lemma min_valid (s : t) : caches_valid s → caches_valid (min s).2.
Proof.
  apply caches_valid_same; unfold min;
    destruct (length (_data s) =? 0)%nat; try done;
    by destruct (_minInvalidated s).
Qed.

Lemma max_valid (s : t) : caches_valid s → caches_valid (max s).2.
Proof.
  apply caches_valid_same; unfold max;
    destruct (length (_data s) =? 0)%nat; try done;
    by destruct (_maxInvalidated s).
Qed.

Lemma mean_valid (s : t) : caches_valid s → caches_valid (mean s).2.
Proof.
  apply caches_valid_same; unfold mean;
    destruct (_meanInvalidated s); try done;
    by destruct (length (_data s) =? 0)%nat.
Qed.

Lemma median_valid (s : t) : caches_valid s → caches_valid (median s).2.
Proof.
  apply caches_valid_same; unfold median;
    destruct (_medianInvalidated s); try done;
    by destruct (length (_data s) =? 0)%nat.
Qed.

(** Under valid caches [std] returns what the recurrence yields for the
    stored sample, and keeps the caches valid. *)
Lemma std_valid (s : t) :
  caches_valid s →
  (std s).1 = welford_std (_data s) ∧ caches_valid (std s).2.
Proof.
  intros Hs. pose proof Hs as [Hstd Hmode]. unfold std.
  destruct (_stdInvalidated s) eqn:Hf.
  - destruct (length (_data s) =? 1)%nat eqn:Hn.
    + split; [by unfold welford_std; rewrite Hn|exact Hs].
    + destruct (welford_loop (_data s)) as [m sum] eqn:Hw.
      rewrite welford_loop_spec in Hw.
      assert (welford_std (_data s)
              = Math_sqrt (sum / (of_nat (length (_data s)) - 1))%float) as Hv
        by (unfold welford_std; by rewrite Hn, Hw).
      split; [done|]. split; [|done]. intros _.
      cbn [snd _data _std set_std set_stdInvalidated].
      split; [by apply Nat.eqb_neq|done].
  - split; [by apply Hstd|exact Hs].
Qed.

(** Under valid caches [mode] returns the value of the scan over the
    table of the stored sample, or 0 for the empty sample, and keeps the
    caches valid. *)
Lemma mode_valid (s : t) :
  caches_valid s →
  (_data s = [] → (mode s).1 = 0%float)
  ∧ (_data s ≠ [] → (mode s).1 = mode_of (_data s))
  ∧ caches_valid (mode s).2.
Proof.
  intros Hs. pose proof Hs as [Hstd Hmode]. unfold mode.
  destruct (_modeInvalidated s) eqn:Hf.
  - destruct (length (_data s) =? 0)%nat eqn:Hn.
    + apply Nat.eqb_eq, nil_length_inv in Hn.
      split; [done|]. split; [done|exact Hs].
    + assert (_data s ≠ []) as Hne.
      { intros Hnil. rewrite Hnil in Hn. done. }
      pose proof (mode_scan_init (_data s) (_mode s) Hne) as Hinit.
      destruct (mode_scan _ _ _) as [c m]. cbn [snd] in Hinit. subst m.
      split; [done|]. split; [done|]. split; [done|].
      intros _. by cbn [snd _data _mode set_mode set_modeInvalidated].
  - destruct (Hmode eq_refl) as [Hne Hm]. cbn [fst snd].
    split; [done|]. split; [done|exact Hs].
Qed.

Lemma covariance_state_valid (x y : reference) (s s' : t) (v : number) :
  covariance x y s = Normal (v, s') → caches_valid s → caches_valid s'.
Proof.
  intros Hc Hs. destruct (valid_inputs x y) eqn:Hv.
  - destruct x as [| |xa], y as [| |ya]; try done.
    destruct (covariance_valid xa ya s Hv) as (s1 & Hc1 & _ & Hs1).
    rewrite Hc1 in Hc. injection Hc as _ <-. rewrite Hs1.
    apply (mean_valid (set_data _ _)), set_data_valid.
    by apply (mean_valid (set_data _ _)), set_data_valid.
  - rewrite covariance_invalid in Hc by done. by injection Hc as _ <-.
Qed.

Lemma correlation_state_valid (x y : reference) (s s' : t) (v : number) :
  correlation x y s = Normal (v, s') → caches_valid s → caches_valid s'.
Proof.
  intros Hc Hs. destruct (valid_inputs x y) eqn:Hv.
  - destruct x as [| |xa], y as [| |ya]; try done.
    destruct (correlation_valid xa ya s Hv) as (v1 & s1 & Hc1 & _ & Hs1).
    rewrite Hc1 in Hc. injection Hc as _ <-. rewrite Hs1.
    apply (mean_valid (set_data _ _)), set_data_valid.
    apply (mean_valid (set_data _ _)), set_data_valid.
    apply (std_valid (set_data _ _)), set_data_valid.
    by apply (std_valid (set_data _ _)), set_data_valid.
  - rewrite correlation_invalid in Hc by done. by injection Hc as _ <-.
Qed.

Lemma exec_valid (c : call) (s s' : t) :
  exec c s = Normal s' → caches_valid s → caches_valid s'.
Proof.
  intros Hexec Hs. destruct c; simpl in Hexec;
    try (injection Hexec as <-).
  - by apply set_data_valid.
  - by apply min_valid.
  - by apply max_valid.
  - by apply mean_valid.
  - by apply std_valid.
  - unfold cv. pose proof (std_valid s Hs) as [_ H1].
    destruct (std s) as [sd s1]. pose proof (mean_valid s1 H1) as H2.
    by destruct (mean s1) as [m s2].
  - by apply median_valid.
  - by apply mode_valid.
  - unfold skewness. destruct (length (_data s) <? 3)%nat; [done|].
    pose proof (mean_valid s Hs) as H1. destruct (mean s) as [u s1].
    pose proof (std_valid s1 H1) as [_ H2]. by destruct (std s1) as [sd s2].
  - unfold kurtosis. destruct (length (_data s) <? 4)%nat; [done|].
    pose proof (mean_valid s Hs) as H1. destruct (mean s) as [u s1].
    pose proof (std_valid s1 H1) as [_ H2]. by destruct (std s1) as [sd s2].
  - unfold getConfidenceInterval.
    destruct (length (_data s) =? 0)%nat; [done|].
    pose proof (std_valid s Hs) as [_ H1]. destruct (std s) as [sd s1].
    pose proof (mean_valid s1 H1) as H2. by destruct (mean s1) as [m s2].
  - destruct (covariance x y s) as [[v s1]|] eqn:Hc; [|done].
    injection Hexec as <-. by eapply covariance_state_valid.
  - destruct (correlation x y s) as [[v s1]|] eqn:Hc; [|done].
    injection Hexec as <-. by eapply correlation_state_valid.
Qed.

Lemma reachable_valid (s : t) : reachable s → caches_valid s.
Proof.
  induction 1 as [|c s s' _ IH Hexec]; [done|]. by eapply exec_valid.
Qed.

(** ** Standard deviation *)

(** C6: [std] follows Welford's recurrence.  In every state an engine
    can reach, whether the value is computed by this call or was cached
    by an earlier one, [std] returns 0 for a sample of one element and
    otherwise the square root of [s / (n - 1)], where [s] is the sum the
    recurrence [d = x_i - m], [m = m + d / (i + 1)],
    [s = s + (x_i - m) * d] reaches from [m = 0], [s = 0] over the
    stored sample. *)
Theorem std_follows_welford (s : t) :
  reachable s → (std s).1 = welford_std (_data s).
Proof. intros Hs. by apply std_valid, reachable_valid. Qed.

Lemma std_follows_welford_witness :
  let s := (std (set_data (Array [2; 4; 4; 4; 5; 5; 7; 9]%float) constructor)).2 in
  (std s).1 = welford_std (_data s)
  ∧ (std (set_data (Array [7%float]) s)).1
    = welford_std (_data (set_data (Array [7%float]) s)).
Proof.
  intros s.
  assert (reachable s) as Hs.
  { eapply (reachable_call GetStd); [|reflexivity].
    eapply (reachable_call (SetData _)); [apply reachable_new|reflexivity]. }
  split.
  - by apply std_follows_welford.
  - apply std_follows_welford.
    eapply (reachable_call (SetData _)); [exact Hs|reflexivity].
Defined.

(** ** Mode *)

Lemma mode_of_enumerated (data : array) :
  data ≠ [] →
  Forall (λ x, parseInt (key x) = x) data →
  first_enumerated_mode data (mode_of data).
Proof.
  intros Hdata Hint. pose proof (counted_table data) as Hc.
  destruct (count_table_scan data 0%float Hdata)
    as (pre & k & post & Hsplit & Hk & Hres & Hpre & Hmax).
  apply list_elem_of_fmap in Hk as (v & -> & Hv).
  assert (mode_of data = v) as ->.
  { unfold mode_of. cbv zeta. rewrite Hres. cbn [snd].
    by eapply Forall_forall in Hint. }
  split; [done|]. split.
  - intros w Hw. apply Hmax. by apply list_elem_of_fmap_2.
  - intros w Hw Hne Hocc.
    assert (key w ∈ own_keys (count_table data)) as Hin.
    { apply own_keys_elem, Hc. by apply list_elem_of_fmap_2. }
    assert (key w ∉ pre) as Hnpre.
    { intros Hin'. specialize (Hpre _ Hin'). lia. }
    eapply own_keys_order; [exact Hc|exact Hsplit| |done|done].
    rewrite Hsplit in Hin.
    by apply elem_of_app in Hin as [Hin|[?|Hin]%elem_of_cons].
Qed.

(** C5 (amended): in every state an engine can reach, [mode] returns 0
    for the empty sample; for a sample that is not empty and whose
    values [parseInt] reads back from their keys (integers of magnitude
    below 1e21), [mode] returns a sample value of maximal occurrence
    count, and a tie for the maximal count goes to the value whose key
    the count table enumerates first: keys that are array indices (the
    canonical decimal forms of the integers from 0 to 2^32 - 2) in
    ascending numeric order and ahead of every other key, the other
    keys in the order of their first occurrences in the sample. *)
Theorem mode_first_enumerated (s : t) :
  reachable s →
  (_data s = [] → (mode s).1 = 0%float)
  ∧ (_data s ≠ [] →
     Forall (λ x, parseInt (key x) = x) (_data s) →
     first_enumerated_mode (_data s) (mode s).1).
Proof.
  intros Hs%reachable_valid.
  destruct (mode_valid s Hs) as (Hempty & Hmode & _).
  split; [done|]. intros Hne Hint. rewrite Hmode by done.
  by apply mode_of_enumerated.
Qed.

Lemma mode_first_enumerated_witness :
  (mode constructor).1 = 0%float
  ∧ first_enumerated_mode [3; -2; 1; -2; 3; 1]%float
      (mode (set_data (Array [3; -2; 1; -2; 3; 1]%float) constructor)).1.
Proof.
  split.
  - by apply (mode_first_enumerated constructor reachable_new).
  - apply (mode_first_enumerated
             (set_data (Array [3; -2; 1; -2; 3; 1]%float) constructor)).
    + eapply (reachable_call (SetData _)); [apply reachable_new|reflexivity].
    + done.
    + repeat constructor; vm_compute; reflexivity.
Defined.

(** C5 as it is written fails: for the sample [[3, 1]] both values occur
    once and 3 was inserted first, yet [mode] returns 1; and for the
    sample [[1.5]] it returns 1, which is no value of the sample. *)
Lemma mode_first_inserted_counterexample :
  ¬ first_inserted_mode [3; 1]%float
      (mode (set_data (Array [3; 1]%float) constructor)).1
  ∧ ¬ first_inserted_mode [1.5%float]
        (mode (set_data (Array [1.5%float]) constructor)).1.
Proof.
  split.
  - replace (mode (set_data (Array [3; 1]%float) constructor)).1
      with 1%float by (vm_compute; reflexivity).
    intros (_ & _ & Htie).
    destruct (Htie 3%float) as (pre & post & Hsplit & Hpre).
    + left.
    + vm_compute. intros [=].
    + vm_compute. reflexivity.
    + vm_compute in Hsplit.
      destruct pre as [|k0 pre]; [by injection Hsplit|].
      injection Hsplit as <- _. apply Hpre. vm_compute. left.
  - replace (mode (set_data (Array [1.5%float]) constructor)).1
      with 1%float by (vm_compute; reflexivity).
    intros (Hin & _).
    apply list_elem_of_singleton in Hin.
    apply (f_equal Prim2SF) in Hin. vm_compute in Hin. discriminate.
Qed.

(** * Further properties of the class *)

(** ** The order of numbers *)

Lemma lt_SF (a b : number) : lt a b = SFltb (Prim2SF a) (Prim2SF b).
Proof. apply ltb_spec. Qed.

Lemma isNaN_SF (a : number) :
  isNaN a = match Prim2SF a with S754_nan => true | _ => false end.
Proof.
  unfold isNaN, is_nan. rewrite FloatAxioms.eqb_spec. unfold SFeqb.
  destruct (Prim2SF a) as [s|s| |s m e]; simpl; try done.
  - by destruct s.
  - rewrite Z.compare_refl, Pos.compare_cont_refl. by destruct s.
Qed.

Lemma SFltb_trans (a b c : spec_float) :
  SFltb a b = true → SFltb b c = true → SFltb a c = true.
Proof.
  unfold SFltb.
  destruct a as [sa|sa| |sa ma ea], b as [sb|sb| |sb mb eb],
    c as [sc|sc| |sc mc ec]; simpl;
    try destruct sa; try destruct sb; try destruct sc; simpl; try done;
    destruct (Z.compare_spec ea eb), (Z.compare_spec eb ec),
      (Z.compare_spec ea ec); try done; try lia; subst;
    rewrite ?Pos.compare_cont_spec; simpl;
    destruct (Pos.compare_spec ma mb), (Pos.compare_spec mb mc),
      (Pos.compare_spec ma mc); simpl; try done; try lia.
Qed.

Lemma SFltb_cotrans (a b c : spec_float) :
  SFltb a c = true → b ≠ S754_nan →
  SFltb a b = true ∨ SFltb b c = true.
Proof.
  unfold SFltb.
  destruct a as [sa|sa| |sa ma ea], b as [sb|sb| |sb mb eb],
    c as [sc|sc| |sc mc ec]; simpl;
    try destruct sa; try destruct sb; try destruct sc; simpl;
    try done; try (by left); try (by right); intros H _;
    destruct (Z.compare_spec ea eb), (Z.compare_spec eb ec),
      (Z.compare_spec ea ec); try done; try lia; subst;
    try (by left); try (by right);
    rewrite ?Pos.compare_cont_spec in *; simpl in *;
    destruct (Pos.compare_spec ma mb), (Pos.compare_spec mb mc),
      (Pos.compare_spec ma mc); simpl in *; try done; try lia;
      try (by left); try (by right).
Qed.

Lemma lt_trans (a b c : number) :
  lt a b = true → lt b c = true → lt a c = true.
Proof. rewrite !lt_SF. apply SFltb_trans. Qed.

Lemma lt_cotrans (a b c : number) :
  lt a c = true → isNaN b = false → lt a b = true ∨ lt b c = true.
Proof.
  rewrite !lt_SF, isNaN_SF. intros Hac Hb. apply SFltb_cotrans; [done|].
  intros Hnan. by rewrite Hnan in Hb.
Qed.

Lemma lt_not_NaN (a b : number) :
  lt a b = true → isNaN a = false ∧ isNaN b = false.
Proof.
  rewrite lt_SF, !isNaN_SF. unfold SFltb.
  by destruct (Prim2SF a), (Prim2SF b).
Qed.

(** ** Scans for an extreme

    A scan keeps the element [x] whenever [before x acc] holds; for
    [min] that is [x < acc], for [max] it is [x > acc]. *)

Section Scan.
Variable before : number → number → bool.
Hypothesis before_irrefl : ∀ a, before a a = false.
Hypothesis before_trans :
  ∀ a b c, before a b = true → before b c = true → before a c = true.
Hypothesis before_cotrans :
  ∀ a b c, before a c = true → isNaN b = false →
           before a b = true ∨ before b c = true.
Hypothesis before_not_NaN :
  ∀ a b, before a b = true → isNaN a = false.

Lemma scan_extreme (l : list number) (init : number) :
  isNaN init = false →
  let r := foldl (λ acc x, if before x acc then x else acc) init l in
  isNaN r = false
  ∧ (r = init ∨ r ∈ l)
  ∧ before init r = false
  ∧ (∀ x, x ∈ l → before x r = false)
  ∧ (∀ x, x ∈ l → before x init = true → r ∈ l).
Proof.
  revert init. induction l as [|x l IH]; intros init Hinit; cbn [foldl].
  - split; [done|]. split; [by left|]. split; [apply before_irrefl|].
    split; by intros x ?%elem_of_nil.
  - destruct (before x init) eqn:Hx.
    + destruct (IH x (before_not_NaN _ _ Hx)) as (Hr & Hin & Hxr & Hl & _).
      set (r := foldl _ x l) in *.
      assert (r ∈ x :: l) as Hmem.
      { destruct Hin as [->|Hin]; [left|by right]. }
      split; [done|]. split; [by right|]. split; [|split].
      * destruct (before init r) eqn:Hir; [|done].
        by rewrite (before_trans _ _ _ Hx Hir) in Hxr.
      * by intros y [->|Hy]%elem_of_cons; [|apply Hl].
      * done.
    + destruct (IH init Hinit) as (Hr & Hin & Hir & Hl & Hsome).
      set (r := foldl _ init l) in *.
      split; [done|]. split; [|split; [done|split]].
      * destruct Hin as [->|Hin]; [by left|right; by right].
      * intros y [->|Hy]%elem_of_cons; [|by apply Hl].
        destruct (before x r) eqn:Hxr; [|done].
        destruct (before_cotrans _ init _ Hxr Hinit); congruence.
      * intros y [->|Hy]%elem_of_cons Hyi; [congruence|].
        right. by eapply Hsome.
Qed.
End Scan.

Lemma lt_irrefl (a : number) : lt a a = false.
Proof.
  rewrite lt_SF. unfold SFltb.
  destruct (Prim2SF a) as [sa|sa| |sa ma ea]; simpl; try done.
  - by destruct sa.
  - rewrite Z.compare_refl, Pos.compare_cont_refl. by destruct sa.
Qed.

Lemma least_extreme (l : list number) :
  let r := least l in
  (r = MAX_VALUE ∨ r ∈ l)
  ∧ (∀ x, x ∈ l → lt x r = false)
  ∧ (∀ x, x ∈ l → lt x MAX_VALUE = true → r ∈ l).
Proof.
  destruct (scan_extreme lt lt_irrefl lt_trans lt_cotrans
              (λ a b H, proj1 (lt_not_NaN a b H)) l MAX_VALUE eq_refl)
    as (_ & H1 & _ & H2 & H3).
  done.
Qed.

Lemma greatest_extreme (l : list number) :
  let r := greatest l in
  (r = MIN_VALUE ∨ r ∈ l)
  ∧ (∀ x, x ∈ l → gt x r = false)
  ∧ (∀ x, x ∈ l → gt x MIN_VALUE = true → r ∈ l).
Proof.
  destruct (scan_extreme gt (λ a, lt_irrefl a)
              (λ a b c Hab Hbc, lt_trans c b a Hbc Hab)
              (λ a b c Hac Hb,
                 match lt_cotrans c b a Hac Hb with
                 | or_introl H => or_intror H
                 | or_intror H => or_introl H
                 end)
              (λ a b H, proj2 (lt_not_NaN b a H)) l MIN_VALUE eq_refl)
    as (_ & H1 & _ & H2 & H3).
  done.
Qed.

(** ** Invariants of every history *)

(** A property that the constructor establishes and the assignment and
    the six cached accessors keep holds in every state an engine can
    reach: all other calls are compositions of these. *)
Lemma reachable_invariant (P : t → Prop) :
  P constructor →
  (∀ d s, P s → P (set_data d s)) →
  (∀ s, P s → P (min s).2) →
  (∀ s, P s → P (max s).2) →
  (∀ s, P s → P (mean s).2) →
  (∀ s, P s → P (std s).2) →
  (∀ s, P s → P (median s).2) →
  (∀ s, P s → P (mode s).2) →
  ∀ s, reachable s → P s.
Proof.
  intros Hnew Hset Hmin Hmax Hmean Hstd Hmedian Hmode s Hs.
  induction Hs as [|c s s' _ IH Hexec]; [done|].
  destruct c; simpl in Hexec; try (injection Hexec as <-); auto.
  - unfold cv. pose proof (Hstd s IH) as H1.
    destruct (std s) as [sd s1]. pose proof (Hmean s1 H1) as H2.
    by destruct (mean s1) as [m s2].
  - unfold skewness. destruct (length (_data s) <? 3)%nat; [done|].
    pose proof (Hmean s IH) as H1. destruct (mean s) as [u s1].
    pose proof (Hstd s1 H1) as H2. by destruct (std s1) as [sd s2].
  - unfold kurtosis. destruct (length (_data s) <? 4)%nat; [done|].
    pose proof (Hmean s IH) as H1. destruct (mean s) as [u s1].
    pose proof (Hstd s1 H1) as H2. by destruct (std s1) as [sd s2].
  - unfold getConfidenceInterval.
    destruct (length (_data s) =? 0)%nat; [done|].
    pose proof (Hstd s IH) as H1. destruct (std s) as [sd s1].
    pose proof (Hmean s1 H1) as H2. by destruct (mean s1) as [m s2].
  - destruct (covariance x y s) as [[v s1]|] eqn:Hc; [|done].
    injection Hexec as <-. destruct (valid_inputs x y) eqn:Hv.
    + destruct x as [| |xa], y as [| |ya]; try done.
      destruct (covariance_valid xa ya s Hv) as (s2 & Hc2 & _ & Hs2).
      rewrite Hc2 in Hc. injection Hc as _ <-. rewrite Hs2.
      apply (Hmean (set_data _ _)), Hset.
      by apply (Hmean (set_data _ _)), Hset.
    + rewrite covariance_invalid in Hc by done. by injection Hc as _ <-.
  - destruct (correlation x y s) as [[v s1]|] eqn:Hc; [|done].
    injection Hexec as <-. destruct (valid_inputs x y) eqn:Hv.
    + destruct x as [| |xa], y as [| |ya]; try done.
      destruct (correlation_valid xa ya s Hv) as (v2 & s2 & Hc2 & _ & Hs2).
      rewrite Hc2 in Hc. injection Hc as _ <-. rewrite Hs2.
      apply (Hmean (set_data _ _)), Hset.
      apply (Hmean (set_data _ _)), Hset.
      apply (Hstd (set_data _ _)), Hset.
      by apply (Hstd (set_data _ _)), Hset.
    + rewrite correlation_invalid in Hc by done. by injection Hc as _ <-.
Qed.

Lemma sum_loop_mean_of (data : array) :
  data ≠ [] →
  (sum_loop data / of_nat (length data))%float = mean_of data.
Proof.
  destruct data as [|x rest]; [done|]. intros _.
  unfold mean_of, sum_loop, for_loop. f_equal.
  cbn [length]. rewrite Nat.sub_succ, Nat.sub_0_r.
  apply (foldl_seq_elems (λ sum y, (sum + y)%float) [x] rest).
Qed.

Lemma median_value (s : t) :
  _data s ≠ [] →
  middle (length (_data s))
    (sort (λ a b, (a - b)%float) (slice_all (_data s)))
  = median_of (_data s).
Proof.
  intros Hne. rewrite slice_all_id. unfold median_of.
  by destruct (_data s).
Qed.

Lemma min_scan (s : t) :
  for_loop 0 (length (_data s))
    (λ i min, if lt (data_at s i) min then data_at s i else min) MAX_VALUE
  = least (_data s).
Proof.
  apply (for_loop_elems (λ min x, if lt x min then x else min)).
Qed.

Lemma max_scan (s : t) :
  for_loop 0 (length (_data s))
    (λ i max, if gt (data_at s i) max then data_at s i else max) MIN_VALUE
  = greatest (_data s).
Proof.
  apply (for_loop_elems (λ max x, if gt x max then x else max)).
Qed.

Lemma queries_valid_same (s s' : t) :
  _data s' = _data s →
  _minInvalidated s' = _minInvalidated s →
  _maxInvalidated s' = _maxInvalidated s →
  _mean s' = _mean s → _meanInvalidated s' = _meanInvalidated s →
  _median s' = _median s → _medianInvalidated s' = _medianInvalidated s →
  queries_valid s → queries_valid s'.
Proof. unfold queries_valid. by intros -> -> -> -> -> -> ->. Qed.

Lemma reachable_queries_valid (s : t) : reachable s → queries_valid s.
Proof.
  apply reachable_invariant; clear s.
  - done.
  - intros d s Hs. destruct d as [| |a]; try done. unfold set_data.
    by destruct (length a =? 0)%nat.
  - intros s. apply queries_valid_same; unfold min;
      destruct (length (_data s) =? 0)%nat; try done;
      by destruct (_minInvalidated s) eqn:Hf.
  - intros s. apply queries_valid_same; unfold max;
      destruct (length (_data s) =? 0)%nat; try done;
      by destruct (_maxInvalidated s) eqn:Hf.
  - intros s Hs. pose proof Hs as (Hmin & Hmax & Hmean & Hmedian).
    unfold mean. destruct (_meanInvalidated s) eqn:Hf; [|exact Hs].
    destruct (length (_data s) =? 0)%nat eqn:Hn; [exact Hs|].
    assert (_data s ≠ []) as Hne.
    { intros Hnil. by rewrite Hnil in Hn. }
    split; [done|]. split; [done|]. split; [|done]. intros _.
    split; [done|]. by apply sum_loop_mean_of.
  - intros s. apply queries_valid_same; unfold std;
      destruct (_stdInvalidated s); try done;
      destruct (length (_data s) =? 1)%nat; try done;
      by destruct (welford_loop (_data s)).
  - intros s Hs. pose proof Hs as (Hmin & Hmax & Hmean & Hmedian).
    unfold median. destruct (_medianInvalidated s) eqn:Hf; [|exact Hs].
    destruct (length (_data s) =? 0)%nat eqn:Hn; [exact Hs|].
    assert (_data s ≠ []) as Hne.
    { intros Hnil. by rewrite Hnil in Hn. }
    split; [done|]. split; [done|]. split; [done|]. intros _.
    cbn [snd _data _median set_median set_medianInvalidated].
    split; [done|]. by apply median_value.
  - intros s. apply queries_valid_same; unfold mode;
      destruct (_modeInvalidated s); try done;
      destruct (length (_data s) =? 0)%nat; try done;
      by destruct (mode_scan _ _ _).
Qed.

(** ** Cached values are current *)

Lemma reachable_mean (s : t) :
  reachable s → (mean s).1 = mean_of (_data s).
Proof.
  intros (_ & _ & Hmean & _)%reachable_queries_valid.
  unfold mean. destruct (_meanInvalidated s) eqn:Hf.
  - destruct (_data s) as [|x rest] eqn:Hd; [done|].
    cbn [length Nat.eqb fst _mean set_mean set_meanInvalidated].
    by apply (sum_loop_mean_of (x :: rest)).
  - by apply Hmean.
Qed.

Lemma reachable_median (s : t) :
  reachable s → (median s).1 = median_of (_data s).
Proof.
  intros (_ & _ & _ & Hmedian)%reachable_queries_valid.
  unfold median. destruct (_medianInvalidated s) eqn:Hf.
  - destruct (length (_data s) =? 0)%nat eqn:Hn.
    + apply Nat.eqb_eq, nil_length_inv in Hn. by rewrite Hn.
    + cbn [fst _median set_median set_medianInvalidated].
      apply median_value. intros Hnil. by rewrite Hnil in Hn.
  - by apply Hmedian.
Qed.

Lemma reachable_std (s : t) :
  reachable s → (std s).1 = welford_std (_data s).
Proof. intros Hs. by apply std_valid, reachable_valid. Qed.



Lemma min_value (s : t) :
  reachable s → _data s ≠ [] → (min s).1 = least (_data s).
Proof.
  intros (Hf & _)%reachable_queries_valid Hne. unfold min.
  destruct (length (_data s) =? 0)%nat eqn:Hn.
  - apply Nat.eqb_eq, nil_length_inv in Hn. done.
  - rewrite Hf. cbn [fst _min set_min]. apply min_scan.
Qed.

Lemma max_value (s : t) :
  reachable s → _data s ≠ [] → (max s).1 = greatest (_data s).
Proof.
  intros (_ & Hf & _)%reachable_queries_valid Hne. unfold max.
  destruct (length (_data s) =? 0)%nat eqn:Hn.
  - apply Nat.eqb_eq, nil_length_inv in Hn. done.
  - rewrite Hf. cbn [fst _max set_max]. apply max_scan.
Qed.

(** X2: [min] is a lower bound of the sample.  In every reachable state
    with a sample that is not empty, no element is less than the value
    [min] returns; that value is an element of the sample or
    [Number.MAX_VALUE], and it is an element as soon as one element is
    less than [Number.MAX_VALUE]. *)
Theorem min_is_lower_bound (s : t) :
  reachable s → _data s ≠ [] →
  (∀ x, x ∈ _data s → lt x (min s).1 = false)
  ∧ ((min s).1 ∈ _data s ∨ (min s).1 = MAX_VALUE)
  ∧ (∀ x, x ∈ _data s → lt x MAX_VALUE = true → (min s).1 ∈ _data s).
Proof.
  intros Hs Hne. rewrite (min_value s Hs Hne).
  destruct (least_extreme (_data s)) as (H1 & H2 & H3).
  split; [done|]. split; [tauto|done].
Qed.

Lemma min_is_lower_bound_witness :
  let s := set_data (Array [3; -7; 2.5]%float) constructor in
  (∀ x, x ∈ _data s → lt x (min s).1 = false)
  ∧ ((min s).1 ∈ _data s ∨ (min s).1 = MAX_VALUE)
  ∧ (∀ x, x ∈ _data s → lt x MAX_VALUE = true → (min s).1 ∈ _data s).
Proof.
  intros s. apply min_is_lower_bound; [|done].
  eapply (reachable_call (SetData _)); [apply reachable_new|reflexivity].
Defined.

(** X3: [max] is an upper bound of the sample.  In every reachable state
    with a sample that is not empty, no element is greater than the
    value [max] returns; that value is an element of the sample or
    [Number.MIN_VALUE], and it is an element as soon as one element is
    greater than [Number.MIN_VALUE]. *)
Theorem max_is_upper_bound (s : t) :
  reachable s → _data s ≠ [] →
  (∀ x, x ∈ _data s → gt x (max s).1 = false)
  ∧ ((max s).1 ∈ _data s ∨ (max s).1 = MIN_VALUE)
  ∧ (∀ x, x ∈ _data s → gt x MIN_VALUE = true → (max s).1 ∈ _data s).
Proof.
  intros Hs Hne. rewrite (max_value s Hs Hne).
  destruct (greatest_extreme (_data s)) as (H1 & H2 & H3).
  split; [done|]. split; [tauto|done].
Qed.

Lemma max_is_upper_bound_witness :
  let s := set_data (Array [3; -7; 2.5]%float) constructor in
  (∀ x, x ∈ _data s → gt x (max s).1 = false)
  ∧ ((max s).1 ∈ _data s ∨ (max s).1 = MIN_VALUE)
  ∧ (∀ x, x ∈ _data s → gt x MIN_VALUE = true → (max s).1 ∈ _data s).
Proof.
  intros s. apply max_is_upper_bound; [|done].
  eapply (reachable_call (SetData _)); [apply reachable_new|reflexivity].
Defined.

(** X4: asking twice changes nothing.  For each of the six cached
    accessors and every engine, a second query right after the first
    returns the same value and leaves the engine as the first query left
    it. *)
Theorem repeated_query_is_stable (s : t) :
  min (min s).2 = ((min s).1, (min s).2)
  ∧ max (max s).2 = ((max s).1, (max s).2)
  ∧ mean (mean s).2 = ((mean s).1, (mean s).2)
  ∧ std (std s).2 = ((std s).1, (std s).2)
  ∧ median (median s).2 = ((median s).1, (median s).2)
  ∧ mode (mode s).2 = ((mode s).1, (mode s).2).
Proof.
  repeat split.
  - unfold min. destruct (length (_data s) =? 0)%nat eqn:Hn.
    + cbn [snd]. by rewrite Hn.
    + destruct (_minInvalidated s) eqn:Hf; cbn [snd fst _data set_min];
        rewrite Hn; cbn [_minInvalidated set_min]; by rewrite Hf.
  - unfold max. destruct (length (_data s) =? 0)%nat eqn:Hn.
    + cbn [snd]. by rewrite Hn.
    + destruct (_maxInvalidated s) eqn:Hf; cbn [snd fst _data set_max];
        rewrite Hn; cbn [_maxInvalidated set_max]; by rewrite Hf.
  - unfold mean. destruct (_meanInvalidated s) eqn:Hf.
    + destruct (length (_data s) =? 0)%nat eqn:Hn.
      * cbn [snd]. by rewrite Hf, Hn.
      * done.
    + cbn [snd]. by rewrite Hf.
  - unfold std. destruct (_stdInvalidated s) eqn:Hf.
    + destruct (length (_data s) =? 1)%nat eqn:Hn.
      * cbn [snd]. by rewrite Hf, Hn.
      * by destruct (welford_loop (_data s)).
    + cbn [snd]. by rewrite Hf.
  - unfold median. destruct (_medianInvalidated s) eqn:Hf.
    + destruct (length (_data s) =? 0)%nat eqn:Hn.
      * cbn [snd]. by rewrite Hf, Hn.
      * done.
    + cbn [snd]. by rewrite Hf.
  - unfold mode. destruct (_modeInvalidated s) eqn:Hf.
    + destruct (length (_data s) =? 0)%nat eqn:Hn.
      * cbn [snd]. by rewrite Hf, Hn.
      * by destruct (mode_scan _ _ _).
    + cbn [snd]. by rewrite Hf.
Qed.

(** ** What a call does to the stored sample *)






(** ** Degenerate samples *)

(** X6: an engine without a sample.  In every reachable state whose
    sample is empty, [min], [max], [mean], [median] and [mode] return 0,
    [fiveNumbers] and [getQuantile] return the empty array and
    [getConfidenceInterval] the interval from 0 to 0; [std] returns the
    negative zero (the root of [0 / -1]), and [cv] and both [fences]
    are NaN. *)
Theorem engine_without_sample (s : t) :
  reachable s → _data s = [] →
  (min s).1 = 0%float ∧ (max s).1 = 0%float
  ∧ (mean s).1 = 0%float ∧ (median s).1 = 0%float ∧ (mode s).1 = 0%float
  ∧ (std s).1 = (-0)%float
  ∧ (cv s).1 = PrimFloat.nan
  ∧ fiveNumbers s = []
  ∧ fences s = (PrimFloat.nan, PrimFloat.nan)
  ∧ (∀ p, getQuantile p s = [])
  ∧ (∀ t, (getConfidenceInterval t s).1 = (0%float, 0%float)).
Proof.
  intros Hs Hd.
  pose proof (reachable_mean s Hs) as Hmean.
  pose proof (reachable_median s Hs) as Hmedian.
  pose proof (reachable_std s Hs) as Hstd.
  destruct (mode_valid s (reachable_valid s Hs)) as (Hmode & _ & _).
  rewrite Hd in Hmean, Hmedian, Hstd.
  assert (fiveNumbers s = []) as Hfive by (unfold fiveNumbers; by rewrite Hd).
  split; [unfold min; by rewrite Hd|]. split; [unfold max; by rewrite Hd|].
  split; [done|]. split; [done|]. split; [by apply Hmode|].
  split; [done|]. split; [|split; [done|split; [|split]]].
  - unfold cv. destruct (std s) as [sd s1] eqn:Hstd1.
    assert (reachable s1) as Hs1.
    { apply (reachable_call GetStd s); [done|]. simpl. by rewrite Hstd1. }
    assert (_data s1 = []) as Hd1.
    { pose proof (std_data s) as H. rewrite Hstd1 in H. simpl in H. congruence. }
    pose proof (reachable_mean s1 Hs1) as Hmean1.
    rewrite Hd1 in Hmean1. destruct (mean s1) as [m s2].
    cbn [fst] in *. by subst sd m.
  - unfold fences. by rewrite Hfive.
  - intros p. unfold getQuantile. by rewrite Hd.
  - intros t0. unfold getConfidenceInterval. by rewrite Hd.
Qed.

Lemma engine_without_sample_witness :
  let s := (std (set_data null constructor)).2 in
  (std s).1 = (-0)%float ∧ (cv s).1 = PrimFloat.nan
  ∧ fences s = (PrimFloat.nan, PrimFloat.nan).
Proof.
  intros s.
  assert (reachable s) as Hs.
  { eapply (reachable_call GetStd); [|reflexivity].
    eapply (reachable_call (SetData null)); [apply reachable_new|reflexivity]. }
  destruct (engine_without_sample s Hs eq_refl)
    as (_ & _ & _ & _ & _ & H1 & H2 & _ & H3 & _).
  done.
Defined.

(** X7: a sample of one value.  In every reachable state whose sample is
    the single value [x], [median] returns [x], [std] returns 0,
    [fiveNumbers] is five times [x] and [mean] is [x / 1]; [min] returns
    [x] if [x] is less than [Number.MAX_VALUE], and [max] returns [x] if
    [x] is greater than [Number.MIN_VALUE]. *)
Theorem sample_of_one_value (s : t) (x : number) :
  reachable s → _data s = [x] →
  (median s).1 = x
  ∧ (std s).1 = 0%float
  ∧ fiveNumbers s = [x; x; x; x; x]
  ∧ (mean s).1 = (x / 1)%float
  ∧ (lt x MAX_VALUE = true → (min s).1 = x)
  ∧ (gt x MIN_VALUE = true → (max s).1 = x).
Proof.
  intros Hs Hd.
  pose proof (reachable_mean s Hs) as Hmean.
  pose proof (reachable_median s Hs) as Hmedian.
  pose proof (reachable_std s Hs) as Hstd.
  assert (_data s ≠ []) as Hne by (by rewrite Hd).
  pose proof (min_value s Hs Hne) as Hmin.
  pose proof (max_value s Hs Hne) as Hmax.
  rewrite Hd in Hmean, Hmedian, Hstd, Hmin, Hmax.
  split; [done|]. split; [done|].
  split; [unfold fiveNumbers, data_at; by rewrite Hd|].
  split; [|split].
  - rewrite Hmean. unfold mean_of. cbn [foldl length]. f_equal.
  - intros Hlt. rewrite Hmin. unfold least. cbn [foldl]. by rewrite Hlt.
  - intros Hgt. rewrite Hmax. unfold greatest. cbn [foldl]. by rewrite Hgt.
Qed.

Lemma sample_of_one_value_witness :
  let s := set_data (Array [1%float]) constructor in
  (median s).1 = 1%float
  ∧ (std s).1 = 0%float
  ∧ fiveNumbers s = [1; 1; 1; 1; 1]%float
  ∧ (mean s).1 = (1 / 1)%float
  ∧ (lt 1 MAX_VALUE = true → (min s).1 = 1%float)
  ∧ (gt 1 MIN_VALUE = true → (max s).1 = 1%float).
Proof.
  intros s. apply sample_of_one_value; [|done].
  eapply (reachable_call (SetData _)); [apply reachable_new|reflexivity].
Defined.

(** X8: what [mode] returns in general.  In every reachable state with a
    sample that is not empty, [mode] returns [parseInt] of the key of a
    sample value that no other value exceeds in occurrences; it is that
    value's integer part as [parseInt] reads it, not always the value. *)
Theorem mode_is_parsed_key_of_most_frequent (s : t) :
  reachable s → _data s ≠ [] →
  ∃ x, x ∈ _data s
       ∧ (mode s).1 = parseInt (key x)
       ∧ ∀ w, w ∈ _data s →
           occurrences (key w) (key <$> _data s)
           ≤ occurrences (key x) (key <$> _data s).
Proof.
  intros Hs%reachable_valid Hne.
  destruct (mode_valid s Hs) as (_ & Hm & _). rewrite (Hm Hne).
  destruct (count_table_scan (_data s) 0%float Hne)
    as (pre & k & post & _ & Hk & Hres & _ & Hmax).
  apply list_elem_of_fmap in Hk as (x & -> & Hx).
  exists x. split; [done|]. split.
  - unfold mode_of. cbv zeta. by rewrite Hres.
  - intros w Hw. apply Hmax. by apply list_elem_of_fmap_2.
Qed.

Lemma mode_is_parsed_key_of_most_frequent_witness :
  let s := set_data (Array [2.5; 7; 2.5]%float) constructor in
  ∃ x, x ∈ _data s
       ∧ (mode s).1 = parseInt (key x)
       ∧ ∀ w, w ∈ _data s →
           occurrences (key w) (key <$> _data s)
           ≤ occurrences (key x) (key <$> _data s).
Proof.
  intros s. apply mode_is_parsed_key_of_most_frequent; [|done].
  eapply (reachable_call (SetData _)); [apply reachable_new|reflexivity].
Defined.

(** ** Parity *)

(** X9: the bit test of [isEven] is the parity of the number: [isEven n]
    holds exactly when [n] is even. *)
Theorem isEven_is_parity (n : nat) : isEven n = Nat.even n.
Proof.
  unfold isEven. change 1%Z with (Z.ones 1).
  rewrite Z.land_ones by lia. change (2 ^ 1)%Z with 2%Z.
  rewrite <- Zeven_mod.
  assert (Z.even (Z.of_nat n) = Nat.even n
          ∧ Z.even (Z.of_nat (S n)) = Nat.even (S n)) as [H _]; [|done].
  induction n as [|n [IH1 IH2]]; [done|]. split; [done|].
  rewrite !Nat2Z.inj_succ. unfold Z.succ. rewrite <- Z.add_assoc.
  change (1 + 1)%Z with (2 * 1)%Z. rewrite Z.even_add_mul_2.
  by cbn [Nat.even].
Qed.

(** ** Sorted copies *)

Lemma sort_insert_perm (cmp : number → number → number) (x : number)
  (l : array) :
  sort_insert cmp x l ≡ₚ x :: l.
Proof.
  induction l as [|y l IH]; [done|]. simpl.
  destruct (gt (cmp y x) 0%float); [done|].
  rewrite IH. apply Permutation_swap.
Qed.

Lemma sort_perm (cmp : number → number → number) (a : array) :
  sort cmp a ≡ₚ a.
Proof.
  unfold sort.
  assert (∀ acc, foldl (λ sorted x, sort_insert cmp x sorted) acc a
                 ≡ₚ a ++ acc) as H.
  { induction a as [|x a IH]; intros acc; [done|]. simpl.
    rewrite IH, sort_insert_perm. by rewrite Permutation_middle. }
  by rewrite H, app_nil_r.
Qed.

Lemma sorted_elem (data : array) (i : nat) :
  (i < length data)%nat →
  ∃ y, elem (sort (λ a b, (a - b)%float) data) i = Some y ∧ y ∈ data.
Proof.
  intros Hi. pose proof (sort_perm (λ a b, (a - b)%float) data) as Hp.
  destruct (lookup_lt_is_Some_2 (sort (λ a b, (a - b)%float) data) i)
    as [y Hy].
  { by rewrite (Permutation_length Hp). }
  exists y. split; [done|]. rewrite <- Hp. by eapply list_elem_of_lookup_2.
Qed.

(** X10: the shape of the five-number summary.  It is empty for the
    empty sample; for any other sample it has exactly five entries, and
    the first and the last of them are elements of the sample. *)
Theorem five_numbers_shape (s : t) :
  (_data s = [] → fiveNumbers s = [])
  ∧ (_data s ≠ [] →
     ∃ lo q1 med q3 hi,
       fiveNumbers s = [lo; q1; med; q3; hi]
       ∧ lo ∈ _data s ∧ hi ∈ _data s).
Proof.
  split; [intros Hd; unfold fiveNumbers; by rewrite Hd|].
  intros Hne. unfold fiveNumbers.
  destruct (length (_data s) =? 0)%nat eqn:Hn0.
  { apply Nat.eqb_eq, nil_length_inv in Hn0. done. }
  apply Nat.eqb_neq in Hn0.
  destruct (length (_data s) =? 1)%nat eqn:Hn1.
  - unfold data_at, elem. destruct (_data s) as [|x rest]; [done|].
    eexists _, _, _, _, _. split; [done|]. split; left.
  - rewrite slice_all_id.
    destruct (sorted_elem (_data s) 0) as (lo & Hlo & Hlo'); [lia|].
    destruct (sorted_elem (_data s) (length (_data s) - 1))
      as (hi & Hhi & Hhi'); [lia|].
    rewrite Hlo, Hhi.
    destruct (isEven (length (_data s)));
      eexists _, _, _, _, _; (split; [done|]); by split.
Qed.

Lemma five_numbers_shape_witness :
  let s := set_data (Array [9; 2; 7; 4]%float) constructor in
  ∃ lo q1 med q3 hi,
    fiveNumbers s = [lo; q1; med; q3; hi] ∧ lo ∈ _data s ∧ hi ∈ _data s.
Proof.
  intros s. by apply (five_numbers_shape s).
Defined.

(** X11: the median of a sample of odd size is one of its values.  In
    every reachable state whose sample has an odd number of elements,
    [median] returns an element of the sample. *)
Theorem median_of_odd_sample_is_a_value (s : t) :
  reachable s → isEven (length (_data s)) = false →
  (median s).1 ∈ _data s.
Proof.
  intros Hs Hodd. rewrite (reachable_median s Hs). unfold median_of.
  destruct (_data s) as [|x rest] eqn:Hd; [done|]. rewrite <- Hd in *.
  unfold middle. rewrite Hodd.
  assert (length (_data s) ≠ 0)%nat as Hn by (rewrite Hd; simpl; lia).
  destruct (sorted_elem (_data s) ((length (_data s) + 1) / 2 - 1))
    as (y & -> & Hy); [|done].
  assert ((length (_data s) + 1) / 2 ≤ length (_data s))%nat.
  { apply Nat.Div0.div_le_upper_bound. lia. }
  assert (0 < (length (_data s) + 1) / 2)%nat; [|lia].
  apply Nat.div_str_pos. lia.
Qed.

Lemma median_of_odd_sample_is_a_value_witness :
  let s := set_data (Array [60; 95; 64; 70; 80]%float) constructor in
  (median s).1 ∈ _data s.
Proof.
  intros s. apply median_of_odd_sample_is_a_value; [|done].
  eapply (reachable_call (SetData _)); [apply reachable_new|reflexivity].
Defined.

(** ** Quantiles *)

Lemma foldl_append_one {A B} (body : B → A * list value → A * list value)
  (l : list B) (init : A * list value) :
  (∀ i a qs, length (body i (a, qs)).2 = S (length qs)) →
  length (foldl (λ acc i, body i acc) init l).2 = (length init.2 + length l)%nat.
Proof.
  intros Hbody. revert init. induction l as [|i l IH]; intros [a qs].
  - simpl. lia.
  - cbn [foldl]. rewrite IH. destruct (body i (a, qs)) as [a' qs'] eqn:Hb.
    pose proof (Hbody i a qs) as Hlen. rewrite Hb in Hlen.
    cbn [snd length] in *. lia.
Qed.

Lemma for_loop_append_one {A} (lo hi : nat)
  (body : nat → A * list value → A * list value) (init : A * list value) :
  (∀ i a qs, length (body i (a, qs)).2 = S (length qs)) →
  length (for_loop lo hi body init).2 = (length init.2 + (hi - lo))%nat.
Proof.
  intros Hbody. unfold for_loop.
  rewrite (foldl_append_one body) by done. by rewrite length_seq.
Qed.

Lemma getQuantile_fraction (_p _p' : value) (s : t) :
  quantile_fraction _p = quantile_fraction _p' →
  getQuantile _p s = getQuantile _p' s.
Proof.
  unfold quantile_fraction, getQuantile. cbv zeta. by intros ->.
Qed.

(** X12: how many quantiles there are.  For a sample of at least two
    elements, [getQuantile] returns the least and the greatest element
    of the sorted copy with one entry per interior level between them:
    [2 + k] entries, where [k] is the least integer not below
    [floor(1 / p) - 1] for the fraction [p] it works with.  An argument
    that is missing, NaN, below 0.01 or above 0.99 gives what 0.25
    gives, which are five entries. *)
Theorem quantile_count (_p : value) (s : t) :
  2 ≤ length (_data s) →
  length (getQuantile _p s)
  = 2 + trip_count (Math_floor (1 / quantile_fraction _p) - 1)%float
  ∧ (isNaN (ToNumber _p) || lt (ToNumber _p) 0.01%float
     || gt (ToNumber _p) 0.99%float = true →
     getQuantile _p s = getQuantile (Some 0.25%float) s
     ∧ length (getQuantile _p s) = 5).
Proof.
  intros Hn.
  assert (∀ q, length (getQuantile q s)
               = 2 + trip_count (Math_floor (1 / quantile_fraction q) - 1)%float)
    as Hlen.
  { intros q. unfold getQuantile, quantile_fraction. cbv zeta.
    replace (length (_data s) <? 2)%nat with false
      by (symmetry; apply Nat.ltb_ge; lia).
    match goal with
    | |- context [for_loop 0 ?k ?b ?init] =>
        pose proof (for_loop_append_one 0 k b init) as Hloop;
        destruct (for_loop 0 k b init) as [q' qs]
    end.
    rewrite length_app. cbn [snd length app] in Hloop. rewrite Hloop.
    - cbn [length]. lia.
    - intros i a qs0. cbn beta iota.
      match goal with |- context [if ?c then _ else _] => destruct c end;
        cbn [snd]; rewrite length_app; cbn [length]; lia. }
  split; [apply Hlen|]. intros Hout.
  assert (quantile_fraction _p = quantile_fraction (Some 0.25%float)) as Hq.
  { unfold quantile_fraction at 1. rewrite Hout. reflexivity. }
  split; [by apply getQuantile_fraction|].
  rewrite Hlen, Hq. reflexivity.
Qed.

Lemma quantile_count_witness :
  let s := set_data (Array [17; 12; 14; 13; 16; 18; 20]%float) constructor in
  (length (getQuantile (Some 0.1%float) s)
   = 2 + trip_count
           (Math_floor (1 / quantile_fraction (Some 0.1%float)) - 1)%float)
  ∧ (getQuantile None s = getQuantile (Some 0.25%float) s
     ∧ length (getQuantile None s) = 5).
Proof.
  intros s. split.
  - apply (quantile_count (Some 0.1%float) s). simpl. lia.
  - apply (quantile_count None s); [simpl; lia|reflexivity].
Defined.

(** ** The values of the association operations *)

Lemma foldl_seq_pairs {A} (g : A → number → number → A)
  (pre1 pre2 l1 l2 : array) (init : A) :
  length pre1 = length pre2 → length l1 = length l2 →
  foldl
    (λ acc i,
       g acc (ToNumber (elem (pre1 ++ l1) i)) (ToNumber (elem (pre2 ++ l2) i)))
    init (seq (length pre1) (length l1))
  = foldl (λ acc '(x, y), g acc x y) init (zip l1 l2).
Proof.
  revert pre1 pre2 l2 init.
  induction l1 as [|x l1 IH]; intros pre1 pre2 [|y l2] init Hpre Hlen;
    try done.
  cbn [length seq foldl zip zip_with].
  assert (elem (pre1 ++ x :: l1) (length pre1) = Some x) as ->
    by (unfold elem; by rewrite list_lookup_middle).
  assert (elem (pre2 ++ y :: l2) (length pre1) = Some y) as ->
    by (unfold elem; by rewrite list_lookup_middle).
  change (ToNumber (Some x)) with x. change (ToNumber (Some y)) with y.
  specialize (IH (pre1 ++ [x]) (pre2 ++ [y]) l2 (g init x y)).
  rewrite <- !(assoc_L (++)) in IH. rewrite !length_app in IH.
  cbn [length app] in IH. rewrite Nat.add_1_r in IH. apply IH.
  - lia.
  - simpl in Hlen. lia.
Qed.

Lemma covariance_value (xa ya : array) (s : t) :
  valid_inputs (Array xa) (Array ya) = true →
  fst <$> covariance (Array xa) (Array ya) s = Normal (covariance_of xa ya).
Proof.
  intros Hv. destruct (covariance_valid xa ya s Hv) as (s' & -> & _ & _).
  apply andb_true_iff in Hv as [Hn Hlen%Nat.eqb_eq].
  apply Nat.leb_le in Hn.
  assert (xa ≠ []) as Hxa by (intros ->; simpl in Hn; lia).
  assert (ya ≠ []) as Hya by (intros ->; simpl in Hlen, Hn; lia).
  cbn [fmap completion_fmap fst]. unfold covariance_of. do 2 f_equal.
  rewrite !sum_loop_mean_of by done. unfold for_loop. rewrite Nat.sub_0_r.
  apply (foldl_seq_pairs
           (λ sum x y, (sum + (x - mean_of xa) * (y - mean_of ya))%float)
           [] [] xa ya); done.
Qed.

Lemma covariance_of_sym (xs ys : list number) :
  length xs = length ys → covariance_of xs ys = covariance_of ys xs.
Proof.
  intros Hlen. unfold covariance_of. rewrite Hlen. f_equal.
  generalize (mean_of xs) (mean_of ys) 0%float. intros mx my.
  revert ys Hlen. induction xs as [|x xs IH]; intros [|y ys] Hlen acc;
    try done.
  cbn [zip zip_with foldl]. simpl in Hlen.
  rewrite (number_mul_comm (x - mx) (y - my)). apply IH. lia.
Qed.

Lemma std_after_set_data (a : array) (s : t) :
  a ≠ [] → (std (set_data (Array a) s)).1 = welford_std a.
Proof.
  intros Ha. rewrite set_data_Array by done. unfold std, welford_std.
  cbn [_stdInvalidated _data].
  destruct (length a =? 1)%nat; [done|].
  rewrite welford_loop_spec. by destruct (welford a).
Qed.

(** X13: the value of [covariance].  For valid inputs the call returns
    the sum of the products [(x_i - mean x) * (y_i - mean y)] over the
    pairs, divided by [n - 1], with each mean the left-to-right sum over
    [n]; the value does not depend on what the engine held. *)
Theorem covariance_is_pairwise_sum (xa ya : array) (s : t) :
  valid_inputs (Array xa) (Array ya) = true →
  fst <$> covariance (Array xa) (Array ya) s = Normal (covariance_of xa ya).
Proof. apply covariance_value. Qed.

Lemma covariance_is_pairwise_sum_witness :
  fst <$> covariance (Array [2.1; 2.5; 4; 3.6]%float)
            (Array [8; 12; 14; 10]%float)
            (set_data (Array [5; 5]%float) constructor)
  = Normal (covariance_of [2.1; 2.5; 4; 3.6]%float [8; 12; 14; 10]%float).
Proof. apply covariance_is_pairwise_sum. reflexivity. Defined.

Lemma correlation_value (xa ya : array) (s : t) :
  valid_inputs (Array xa) (Array ya) = true →
  fst <$> correlation (Array xa) (Array ya) s
  = Normal (covariance_of xa ya / (welford_std xa * welford_std ya))%float.
Proof.
  intros Hv. pose proof Hv as [Hn Hlen%Nat.eqb_eq]%andb_true_iff.
  apply Nat.leb_le in Hn.
  assert (xa ≠ []) as Hxa by (intros ->; simpl in Hn; lia).
  assert (ya ≠ []) as Hya by (intros ->; simpl in Hlen, Hn; lia).
  unfold correlation. cbn [nullish orb length_of mbind completion_bind].
  replace (length xa <? 2)%nat with false by (symmetry; apply Nat.ltb_ge; lia).
  replace (length xa =? length ya)%nat with true
    by (symmetry; by apply Nat.eqb_eq).
  cbn [orb negb].
  pose proof (std_after_set_data xa s Hxa) as Hxs.
  destruct (std (set_data (Array xa) s)) as [xs s1]. cbn [fst snd] in *.
  pose proof (std_after_set_data ya s1 Hya) as Hys.
  destruct (std (set_data (Array ya) s1)) as [ys s2]. cbn [fst snd] in *.
  pose proof (covariance_value xa ya s2 Hv) as Hcov.
  destruct (covariance (Array xa) (Array ya) s2) as [[cov s3]|]; [|done].
  cbn [fmap completion_fmap fst mbind completion_bind] in *.
  injection Hcov as ->. by subst xs ys.
Qed.

(** X14: the value of [correlation], and its symmetry.  For valid
    inputs the call returns the [covariance] value divided by the
    product of the two standard deviations, each computed by the
    recurrence of [std] from the series alone; and for any two
    arguments and any two engines [correlation(x, y)] and
    [correlation(y, x)] return the same number. *)
Theorem correlation_is_normalised_covariance (x y : reference) (s s' : t) :
  (∀ xa ya, x = Array xa → y = Array ya → valid_inputs x y = true →
     fst <$> correlation x y s
     = Normal (covariance_of xa ya / (welford_std xa * welford_std ya))%float)
  ∧ fst <$> correlation x y s = fst <$> correlation y x s'.
Proof.
  split.
  - intros xa ya -> -> Hv. by apply correlation_value.
  - destruct (valid_inputs x y) eqn:Hv.
    + pose proof Hv as Hv'. rewrite valid_inputs_sym in Hv'.
      destruct x as [| |xa], y as [| |ya]; try done.
      rewrite !correlation_value by done.
      apply andb_true_iff in Hv as [_ Hlen%Nat.eqb_eq].
      by rewrite (covariance_of_sym xa ya), (number_mul_comm (welford_std xa)).
    + pose proof Hv as Hv'. rewrite valid_inputs_sym in Hv'.
      by rewrite !correlation_invalid.
Qed.

Lemma correlation_is_normalised_covariance_witness :
  let xa := [43; 21; 25; 42; 57; 59; 247]%float in
  let ya := [99; 65; 79; 75; 87; 81; 486]%float in
  fst <$> correlation (Array xa) (Array ya) constructor
  = Normal (covariance_of xa ya / (welford_std xa * welford_std ya))%float.
Proof.
  intros xa ya.
  apply (proj1 (correlation_is_normalised_covariance
                  (Array xa) (Array ya) constructor constructor) xa ya);
    reflexivity.
Defined.

(** ** The confidence factor *)

Lemma lt_asym (a b : number) : lt a b = true → lt b a = false.
Proof.
  intros Hab. destruct (lt b a) eqn:Hba; [|done].
  by rewrite <- (lt_irrefl a), (lt_trans a b a).
Qed.

Lemma getConfidenceInterval_factor (_t _t' : value) (s : t) :
  confidence_factor _t = confidence_factor _t' →
  getConfidenceInterval _t s = getConfidenceInterval _t' s.
Proof.
  unfold confidence_factor, getConfidenceInterval. cbv zeta. by intros ->.
Qed.

Lemma confidence_factor_of_number (x : number) :
  isNaN x = false →
  confidence_factor (Some x)
  = let u := if lt 0.01%float x then x else 0.01%float in
    if lt u 0.99%float then u
    else if lt 0.99%float u then 0.99%float
    else if PrimFloat.get_sign u then u else 0.99%float.
Proof.
  intros Hx. unfold confidence_factor.
  change (ToNumber (Some x)) with x. rewrite Hx.
  assert (Math_max 0.01%float x = if lt 0.01%float x then x else 0.01%float)
    as ->.
  { unfold Math_max. change (isNaN 0.01%float) with false. rewrite Hx.
    cbn [orb]. destruct (lt 0.01%float x); [done|].
    by destruct (lt x 0.01%float). }
  cbv zeta. set (u := if lt 0.01%float x then x else 0.01%float).
  assert (isNaN u = false) as Hu by (subst u; by destruct (lt 0.01%float x)).
  unfold Math_min. rewrite Hu. by change (isNaN 0.99%float) with false.
Qed.

(** X15: the confidence factor is clamped.  Whatever the argument, the
    factor [getConfidenceInterval] works with is neither below 0.01 nor
    above 0.99.  A missing or NaN argument gives the interval of 0.9,
    an argument above 0.99 the interval of 0.99 and an argument below
    0.01 the interval of 0.01. *)
Theorem confidence_factor_is_clamped (_t : value) (s : t) :
  (lt (confidence_factor _t) 0.01%float = false
   ∧ gt (confidence_factor _t) 0.99%float = false)
  ∧ (isNaN (ToNumber _t) = true →
     getConfidenceInterval _t s = getConfidenceInterval (Some 0.9%float) s)
  ∧ (gt (ToNumber _t) 0.99%float = true →
     getConfidenceInterval _t s = getConfidenceInterval (Some 0.99%float) s)
  ∧ (lt (ToNumber _t) 0.01%float = true →
     getConfidenceInterval _t s = getConfidenceInterval (Some 0.01%float) s).
Proof.
  split; [|split; [|split]].
  - assert (∀ x, isNaN x = false →
              lt (confidence_factor (Some x)) 0.01%float = false
              ∧ gt (confidence_factor (Some x)) 0.99%float = false) as Hx.
    { intros x Hx. rewrite (confidence_factor_of_number x Hx). cbv zeta.
      set (u := if lt 0.01%float x then x else 0.01%float).
      assert (lt u 0.01%float = false) as Hu.
      { subst u. destruct (lt 0.01%float x) eqn:H1; [by apply lt_asym|].
        apply lt_irrefl. }
      unfold gt. destruct (lt u 0.99%float) eqn:H2.
      - split; [done|by apply lt_asym].
      - destruct (lt 0.99%float u) eqn:H3; [by split|].
        by destruct (PrimFloat.get_sign u). }
    destruct (isNaN (ToNumber _t)) eqn:Hnan.
    + assert (confidence_factor _t = confidence_factor (Some 0.9%float)) as ->
        by (unfold confidence_factor; by rewrite Hnan).
      by apply Hx.
    + destruct _t as [x|]; [by apply Hx|done].
  - intros Hnan. apply getConfidenceInterval_factor.
    unfold confidence_factor. by rewrite Hnan.
  - intros Hgt. apply getConfidenceInterval_factor.
    destruct _t as [x|]; [|done]. change (ToNumber (Some x)) with x in Hgt.
    change (lt 0.99%float x = true) in Hgt.
    destruct (lt_not_NaN _ _ Hgt) as [_ Hx].
    rewrite (confidence_factor_of_number x Hx). cbv zeta.
    rewrite (lt_trans 0.01%float 0.99%float x eq_refl Hgt).
    by rewrite (lt_asym _ _ Hgt), Hgt.
  - intros Hlt. apply getConfidenceInterval_factor.
    destruct _t as [x|]; [|done]. change (ToNumber (Some x)) with x in Hlt.
    destruct (lt_not_NaN _ _ Hlt) as [Hx _].
    rewrite (confidence_factor_of_number x Hx). cbv zeta.
    by rewrite (lt_asym _ _ Hlt).
Qed.

Lemma confidence_factor_is_clamped_witness :
  let s := set_data (Array [17; 12; 14; 13; 16]%float) constructor in
  getConfidenceInterval None s = getConfidenceInterval (Some 0.9%float) s
  ∧ getConfidenceInterval (Some 7%float) s
    = getConfidenceInterval (Some 0.99%float) s
  ∧ getConfidenceInterval (Some (-1)%float) s
    = getConfidenceInterval (Some 0.01%float) s.
Proof.
  intros s. split; [|split].
  - by apply (confidence_factor_is_clamped None s).
  - by apply (confidence_factor_is_clamped (Some 7%float) s).
  - by apply (confidence_factor_is_clamped (Some (-1)%float) s).
Defined.

(** ** The covariance matrix *)

(** ** Loops, one iteration at a time *)

Lemma for_loop_S {A} (k : nat) (body : nat → A → A) (init : A) :
  for_loop 0 (S k) body init = body k (for_loop 0 k body init).
Proof.
  unfold for_loop. rewrite !Nat.sub_0_r, seq_S, foldl_app. reflexivity.
Qed.

Lemma for_loopM_S {A} (k : nat) (body : nat → A → completion A) (init : A) :
  for_loopM 0 (S k) body init = (a ← for_loopM 0 k body init; body k a).
Proof.
  unfold for_loopM. rewrite !Nat.sub_0_r, seq_S, foldl_app. reflexivity.
Qed.

Lemma for_loopM_0 {A} (body : nat → A → completion A) (init : A) :
  for_loopM 0 0 body init = Normal init.
Proof. reflexivity. Qed.

Lemma for_loopM_ext {A} (lo hi : nat) (body body' : nat → A → completion A)
  (init : A) :
  (∀ i a, (lo ≤ i < hi)%nat → body i a = body' i a) →
  for_loopM lo hi body init = for_loopM lo hi body' init.
Proof.
  intros Hbody. unfold for_loopM. apply foldl_pointwise.
  intros [a|e] i Hi; [|done]. apply Hbody.
  apply elem_of_seq in Hi. lia.
Qed.

(** ** Arrays given by their entries *)

Lemma tabulate_S {A} (f : nat → A) (n : nat) :
  f <$> seq 0 (S n) = (f <$> seq 0 n) ++ [f n].
Proof. by rewrite seq_S, fmap_app. Qed.

Lemma tabulate_lookup {A} (f : nat → A) (n i : nat) :
  (i < n)%nat → (f <$> seq 0 n) !! i = Some (f i).
Proof. intros Hi. by rewrite list_lookup_fmap, lookup_seq_lt. Qed.

Lemma tabulate_ext {A} (f g : nat → A) (n : nat) :
  (∀ i, (i < n)%nat → f i = g i) → f <$> seq 0 n = g <$> seq 0 n.
Proof.
  intros Hfg. apply list_fmap_ext. intros i x Hx.
  apply lookup_seq in Hx as [-> Hi]. by apply Hfg.
Qed.

Lemma tabulate_insert {A} (f : nat → A) (n i : nat) (v : A) :
  (i < n)%nat →
  <[i := v]> (f <$> seq 0 n)
  = (λ k, if decide (k = i) then v else f k) <$> seq 0 n.
Proof.
  intros Hi. apply list_eq. intros k.
  destruct (decide (k < n)%nat) as [Hk|Hk].
  - rewrite tabulate_lookup by done. destruct (decide (k = i)) as [->|Hne].
    + rewrite list_lookup_insert_eq; [done|]. by rewrite length_fmap, length_seq.
    + rewrite list_lookup_insert_ne by done. by rewrite tabulate_lookup.
  - rewrite !lookup_ge_None_2; [done| |];
      rewrite ?length_insert, length_fmap, length_seq; lia.
Qed.

Lemma tabulate_length {A} (f : nat → A) (n : nat) :
  length (f <$> seq 0 n) = n.
Proof. by rewrite length_fmap, length_seq. Qed.

Lemma slot_set_end {A} (a : slots A) (n : nat) (x : A) :
  length a = n → slot_set a n x = a ++ [Some x].
Proof.
  intros <-. unfold slot_set. rewrite Nat.ltb_irrefl, Nat.sub_diag. reflexivity.
Qed.

Lemma slot_get_last {A} (a : slots A) (n : nat) (x : A) :
  length a = n → slot_get (a ++ [Some x]) n = Some x.
Proof. intros <-. unfold slot_get. by rewrite list_lookup_middle. Qed.

Lemma slot_set_last {A} (a : slots A) (n : nat) (x y : A) :
  length a = n → slot_set (a ++ [Some x]) n y = a ++ [Some y].
Proof.
  intros <-. unfold slot_set. rewrite length_app. cbn [length].
  replace (length a <? length a + 1)%nat with true
    by (symmetry; apply Nat.ltb_lt; lia).
  rewrite insert_app_r_alt by done. by rewrite Nat.sub_diag.
Qed.

Lemma slot_get_tabulate {A} (f : nat → A) (n i : nat) :
  (i < n)%nat → slot_get ((λ k, Some (f k)) <$> seq 0 n) i = Some (f i).
Proof. intros Hi. unfold slot_get. by rewrite tabulate_lookup. Qed.

Lemma slot_set_tabulate {A} (f : nat → A) (n i : nat) (v : A) :
  (i < n)%nat →
  slot_set ((λ k, Some (f k)) <$> seq 0 n) i v
  = (λ k, Some (if decide (k = i) then v else f k)) <$> seq 0 n.
Proof.
  intros Hi. unfold slot_set. rewrite tabulate_length.
  replace (i <? n)%nat with true by (symmetry; by apply Nat.ltb_lt).
  rewrite tabulate_insert by done. apply tabulate_ext.
  intros k _. by destruct (decide (k = i)).
Qed.

Lemma triangle_ext (c c' : nat → nat → number) (n : nat) :
  (∀ i j, (i < n)%nat → (j ≤ i)%nat → c i j = c' i j) →
  triangle c n = triangle c' n.
Proof.
  intros Hc. unfold triangle. apply tabulate_ext. intros i Hi. f_equal.
  apply tabulate_ext. intros j Hj. f_equal. apply Hc; lia.
Qed.

Lemma row_at_lookup (rows : list array) (i : nat) (row : array) :
  rows !! i = Some row → row_at rows i = Normal row.
Proof. unfold row_at. by intros ->. Qed.

Lemma entry_at_lookup (rows : list array) (i j : nat) (row : array) :
  rows !! i = Some row → ToNumber (row !! j) = entry_at rows i j.
Proof. unfold entry_at. by intros ->. Qed.

(** ** The loops of [covarianceMatrix] *)

Lemma zero_triangle_loop (n : nat) :
  for_loop 0 n
    (λ j (cov : slots (slots number)),
       slot_set cov j (replicate (j + 1) (Some 0%float)))
    []
  = triangle (λ _ _, 0%float) n.
Proof.
  induction n as [|n IH]; [done|].
  rewrite for_loop_S, IH. cbn beta.
  rewrite slot_set_end by apply tabulate_length.
  unfold triangle.
  rewrite (tabulate_S (λ i, Some ((λ j, Some 0%float) <$> seq 0 (i + 1))) n).
  rewrite (const_fmap (λ _ : nat, Some 0%float) (seq 0 (n + 1)) (Some 0%float))
    by done.
  by rewrite length_seq.
Qed.

Lemma column_sum_loop (rows : list array) (pre : slots number)
  (j : nat) (a0 : number) (k : nat) :
  length pre = j → (k ≤ length rows)%nat →
  for_loopM 0 k
    (λ i sums,
       xi ← row_at rows i;
       Normal
         (slot_set sums j
            (ToNumber (slot_get sums j) + ToNumber (xi !! j))%float))
    (pre ++ [Some a0])
  = Normal
      (pre ++ [Some (foldl (λ sum i, (sum + entry_at rows i j)%float)
                       a0 (seq 0 k))]).
Proof.
  intros Hj. induction k as [|k IH]; intros Hk; [done|].
  rewrite for_loopM_S, IH by lia. cbn [mbind completion_bind].
  destruct (lookup_lt_is_Some_2 rows k) as [xi Hxi]; [lia|].
  rewrite (row_at_lookup _ _ _ Hxi). cbn [mbind completion_bind].
  rewrite slot_get_last, slot_set_last, (entry_at_lookup _ _ _ _ Hxi) by done.
  by rewrite seq_S, foldl_app.
Qed.

Lemma column_means_loop (rows : list array) (n : nat) :
  for_loopM 0 n
    (λ j sums,
       sums ← for_loopM 0 (length rows)
         (λ i sums,
            xi ← row_at rows i;
            Normal
              (slot_set sums j
                 (ToNumber (slot_get sums j) + ToNumber (xi !! j))%float))
         (slot_set sums j 0%float);
       Normal
         (slot_set sums j
            (ToNumber (slot_get sums j) * (1 / of_nat (length rows)))%float))
    []
  = Normal ((λ j, Some (column_mean rows j)) <$> seq 0 n).
Proof.
  induction n as [|n IH]; [done|].
  rewrite for_loopM_S, IH. cbn [mbind completion_bind].
  set (pre := (λ j, Some (column_mean rows j)) <$> seq 0 n).
  assert (length pre = n) as Hlen by apply tabulate_length.
  rewrite slot_set_end by done.
  rewrite (column_sum_loop rows pre n) by done. cbn [mbind completion_bind].
  rewrite slot_get_last, slot_set_last by done.
  subst pre. rewrite tabulate_S. reflexivity.
Qed.

Lemma centred_column_loop (rows : list array) (j k : nat) (mean : number) :
  (k ≤ length rows)%nat →
  for_loopM 0 k
    (λ i (cj : slots number),
       xi ← row_at rows i;
       Normal (slot_push cj (ToNumber (xi !! j) - mean)%float))
    []
  = Normal ((λ i, Some (entry_at rows i j - mean)%float) <$> seq 0 k).
Proof.
  induction k as [|k IH]; intros Hk; [done|].
  rewrite for_loopM_S, IH by lia. cbn [mbind completion_bind].
  destruct (lookup_lt_is_Some_2 rows k) as [xi Hxi]; [lia|].
  rewrite (row_at_lookup _ _ _ Hxi). cbn [mbind completion_bind].
  rewrite (entry_at_lookup _ _ _ _ Hxi), tabulate_S. reflexivity.
Qed.

Lemma centred_columns_loop (rows : list array) (n k : nat) :
  (k ≤ n)%nat →
  for_loopM 0 k
    (λ j (C : slots (slots number)),
       cj ← object_at (slot_push C []) j;
       cj ← for_loopM 0 (length rows)
         (λ i cj,
            xi ← row_at rows i;
            Normal
              (slot_push cj
                 (ToNumber (xi !! j)
                  - ToNumber
                      (slot_get ((λ j, Some (column_mean rows j)) <$> seq 0 n)
                         j))%float))
         cj;
       Normal (slot_set (slot_push C []) j cj))
    []
  = Normal
      ((λ j, Some ((λ i, Some (centred rows j i)) <$> seq 0 (length rows)))
       <$> seq 0 k).
Proof.
  induction k as [|k IH]; intros Hk; [done|].
  rewrite for_loopM_S, IH by lia. cbn [mbind completion_bind].
  set (pre := (λ j, Some ((λ i, Some (centred rows j i))
                          <$> seq 0 (length rows))) <$> seq 0 k).
  assert (length pre = k) as Hlen by apply tabulate_length.
  change (slot_push pre []) with (pre ++ [Some ([] : slots number)]).
  unfold object_at. rewrite slot_get_last by done. cbn [mbind completion_bind].
  rewrite slot_get_tabulate by lia. change (ToNumber (Some ?x)) with x.
  rewrite (centred_column_loop rows k) by done.
  cbn [mbind completion_bind]. rewrite slot_set_last by done.
  subst pre. rewrite tabulate_S. reflexivity.
Qed.

Lemma triangle_row (cell : nat → nat → number) (n i : nat) :
  (i < n)%nat →
  object_at (triangle cell n) i
  = Normal ((λ j, Some (cell i j)) <$> seq 0 (i + 1)).
Proof.
  intros Hi. unfold object_at, triangle. by rewrite slot_get_tabulate.
Qed.

Lemma triangle_set_cell (cell : nat → nat → number) (n i j : nat)
  (v : number) :
  (i < n)%nat → (j ≤ i)%nat →
  slot_set (triangle cell n) i
    (slot_set ((λ j, Some (cell i j)) <$> seq 0 (i + 1)) j v)
  = triangle
      (λ i' j', if decide (i' = i ∧ j' = j) then v else cell i' j') n.
Proof.
  intros Hi Hj. unfold triangle.
  rewrite (slot_set_tabulate (cell i)) by lia.
  rewrite (slot_set_tabulate
             (λ i, (λ j, Some (cell i j)) <$> seq 0 (i + 1))) by done.
  apply tabulate_ext. intros i' Hi'. f_equal.
  destruct (decide (i' = i)) as [->|Hne].
  - apply tabulate_ext. intros j' Hj'. f_equal.
    destruct (decide (j' = j)) as [->|Hne].
    + by rewrite decide_True.
    + rewrite decide_False; [done|]. by intros [_ ?].
  - apply tabulate_ext. intros j' Hj'. f_equal.
    rewrite decide_False; [done|]. by intros [? _].
Qed.

(** A pass over the lower triangle that replaces every cell by a
    function of its position and its old value. *)
Lemma triangle_pass (g : nat → nat → number → number)
  (cell : nat → nat → number) (n : nat) :
  for_loopM 0 n
    (λ i cov,
       for_loopM 0 (i + 1)
         (λ j cov,
            row ← object_at cov i;
            Normal
              (slot_set cov i
                 (slot_set row j (g i j (ToNumber (slot_get row j))))))
         cov)
    (triangle cell n)
  = Normal (triangle (λ i j, g i j (cell i j)) n).
Proof.
  assert (∀ k, (k ≤ n)%nat →
            for_loopM 0 k
              (λ i cov,
                 for_loopM 0 (i + 1)
                   (λ j cov,
                      row ← object_at cov i;
                      Normal
                        (slot_set cov i
                           (slot_set row j
                              (g i j (ToNumber (slot_get row j))))))
                   cov)
              (triangle cell n)
            = Normal
                (triangle
                   (λ i j, if (i <? k)%nat then g i j (cell i j) else cell i j)
                   n)) as Houter.
  { induction k as [|k IH]; intros Hk.
    - rewrite for_loopM_0. f_equal; by apply triangle_ext.
    - rewrite for_loopM_S, IH by lia. cbn [mbind completion_bind].
      set (done_rows :=
             λ i j, if (i <? k)%nat then g i j (cell i j) else cell i j).
      assert (∀ l, (l ≤ k + 1)%nat →
                for_loopM 0 l
                  (λ j cov,
                     row ← object_at cov k;
                     Normal
                       (slot_set cov k
                          (slot_set row j
                             (g k j (ToNumber (slot_get row j))))))
                  (triangle done_rows n)
                = Normal
                    (triangle
                       (λ i j,
                          if ((i <? k) || ((i =? k) && (j <? l)))%nat
                          then g i j (cell i j) else cell i j)
                       n)) as Hinner.
      { induction l as [|l IHl]; intros Hl.
        - rewrite for_loopM_0. f_equal; apply triangle_ext.
          intros i j _ _. subst done_rows. cbn beta.
          replace (j <? 0)%nat with false by (by destruct j).
          by rewrite andb_false_r, orb_false_r.
        - rewrite for_loopM_S, IHl by lia. cbn [mbind completion_bind].
          rewrite triangle_row by lia. cbn [mbind completion_bind].
          rewrite slot_get_tabulate by lia. change (ToNumber (Some ?x)) with x.
          rewrite triangle_set_cell by lia. f_equal. apply triangle_ext.
          intros i j Hi Hj.
          destruct (decide (i = k ∧ j = l)) as [[-> ->]|Hne].
          + rewrite Nat.ltb_irrefl, Nat.eqb_refl. cbn [orb andb].
            rewrite Nat.ltb_irrefl.
            replace (l <? S l)%nat with true
              by (symmetry; apply Nat.ltb_lt; lia).
            done.
          + destruct (i <? k)%nat eqn:Hik; [done|]. cbn [orb].
            destruct (i =? k)%nat eqn:Heq; [|done]. cbn [andb].
            apply Nat.eqb_eq in Heq. subst i.
            assert (j ≠ l) by (intros ->; by apply Hne).
            destruct (j <? l)%nat eqn:Hjl.
            * apply Nat.ltb_lt in Hjl.
              by replace (j <? S l)%nat with true
                by (symmetry; apply Nat.ltb_lt; lia).
            * apply Nat.ltb_ge in Hjl.
              by replace (j <? S l)%nat with false
                by (symmetry; apply Nat.ltb_ge; lia). }
      rewrite (Hinner (k + 1)%nat) by lia. f_equal. apply triangle_ext.
      intros i j Hi Hj.
      destruct (i <? k)%nat eqn:Hik.
      + apply Nat.ltb_lt in Hik.
        by replace (i <? S k)%nat with true
          by (symmetry; apply Nat.ltb_lt; lia).
      + cbn [orb]. apply Nat.ltb_ge in Hik.
        destruct (i =? k)%nat eqn:Heq.
        * apply Nat.eqb_eq in Heq. subst i. cbn [andb].
          replace (j <? k + 1)%nat with true
            by (symmetry; apply Nat.ltb_lt; lia).
          by replace (k <? S k)%nat with true
            by (symmetry; apply Nat.ltb_lt; lia).
        * apply Nat.eqb_neq in Heq. cbn [andb].
          by replace (i <? S k)%nat with false
            by (symmetry; apply Nat.ltb_ge; lia). }
  rewrite (Houter n) by done. f_equal. apply triangle_ext.
  intros i j Hi _. by replace (i <? n)%nat with true
    by (symmetry; by apply Nat.ltb_lt).
Qed.

Lemma product_sum_loop (rows : list array) (i j : nat) :
  for_loop 0 (length rows)
    (λ k sum,
       (sum
        + ToNumber
            (slot_get ((λ k, Some (centred rows i k)) <$> seq 0 (length rows)) k)
          * ToNumber
              (slot_get ((λ k, Some (centred rows j k)) <$> seq 0 (length rows))
                 k))%float)
    0%float
  = foldl (λ sum k, (sum + centred rows i k * centred rows j k)%float) 0%float
      (seq 0 (length rows)).
Proof.
  unfold for_loop. rewrite Nat.sub_0_r. apply foldl_pointwise.
  intros sum k Hk. apply elem_of_seq in Hk.
  by rewrite !slot_get_tabulate by lia.
Qed.

(** X16: [covarianceMatrix] returns the empty array for a missing, null or
    empty matrix; for a non-empty matrix whose first row has [n] entries it
    returns without throwing the lower triangle of the covariance matrix:
    row [i] holds the cells [0..i], and cell [(i, j)] is the sum over the
    rows [k] of the products of the centred entries [(k, i)] and [(k, j)],
    times [1 / m] for [m] rows, where a centred entry is the entry minus
    its column mean and the column mean is the column sum times [1 / m].
    The cells above the diagonal are never written. *)
Theorem covariance_matrix_is_lower_triangle (x : matrix) :
  (x = no_matrix ∨ x = null_matrix ∨ x = Matrix [] →
   covarianceMatrix x = Normal [])
  ∧ (∀ x0 rest, x = Matrix (x0 :: rest) →
     covarianceMatrix x
     = Normal (triangle (matrix_entry (x0 :: rest)) (length x0))).
Proof.
  split; [by intros [->|[->| ->]]|].
  intros x0 rest ->. set (rows := x0 :: rest).
  unfold covarianceMatrix. fold rows.
  change (length rows =? 0)%nat with false. cbv iota.
  change (row_at rows 0) with (Normal (A:=array) x0).
  cbn [mbind completion_bind]. cbv zeta.
  set (n := length x0).
  rewrite zero_triangle_loop.
  rewrite (column_means_loop rows n). cbn [mbind completion_bind].
  rewrite (centred_columns_loop rows n n) by done.
  cbn [mbind completion_bind].
  set (C := (λ j, Some ((λ i, Some (centred rows j i)) <$> seq 0 (length rows)))
            <$> seq 0 n).
  assert (∀ i, (i < n)%nat →
            object_at C i
            = Normal ((λ k, Some (centred rows i k)) <$> seq 0 (length rows)))
    as HC.
  { intros i Hi. unfold object_at, C. by rewrite slot_get_tabulate. }
  rewrite (for_loopM_ext 0 n _
             (λ i cov,
                for_loopM 0 (i + 1)
                  (λ j cov,
                     row ← object_at cov i;
                     Normal
                       (slot_set cov i
                          (slot_set row j
                             ((λ i j _,
                                 foldl
                                   (λ sum k,
                                      (sum + centred rows i k
                                             * centred rows j k)%float)
                                   0%float (seq 0 (length rows)))
                                i j (ToNumber (slot_get row j))))))
                  cov)).
  - pose proof
      (triangle_pass
         (λ i j _,
            foldl
              (λ sum k, (sum + centred rows i k * centred rows j k)%float)
              0%float (seq 0 (length rows)))
         (λ _ _, 0%float) n) as Hsum.
    cbv beta in Hsum. rewrite Hsum. cbn [mbind completion_bind].
    rewrite (triangle_pass
               (λ _ _ old, (old * (1 / of_nat (length rows)))%float)).
    reflexivity.
  - intros i cov Hi. rewrite HC by lia. cbn [mbind completion_bind].
    apply for_loopM_ext. intros j cov' Hj. rewrite HC by lia.
    cbn [mbind completion_bind]. cbv zeta. by rewrite product_sum_loop.
Qed.

Lemma covariance_matrix_is_lower_triangle_witness :
  let rows := [[4; 2; 0.6]; [4.2; 2.1; 0.59]; [3.9; 2; 0.58]]%float in
  covarianceMatrix (Matrix rows) = Normal (triangle (matrix_entry rows) 3).
Proof.
  intros rows.
  by apply (proj2 (covariance_matrix_is_lower_triangle (Matrix rows))
              [4; 2; 0.6]%float [[4.2; 2.1; 0.59]; [3.9; 2; 0.58]]%float).
Defined.

(** ** Answers and histories *)

Lemma mean_step (s : t) :
  reachable s →
  ∃ s', mean s = (mean_of (_data s), s')
        ∧ reachable s' ∧ _data s' = _data s.
Proof.
  intros Hs. exists (mean s).2. split; [|split].
  - rewrite <- (reachable_mean s Hs). by destruct (mean s).
  - by apply (reachable_call GetMean s).
  - apply mean_data.
Qed.

Lemma std_step (s : t) :
  reachable s →
  ∃ s', std s = (welford_std (_data s), s')
        ∧ reachable s' ∧ _data s' = _data s.
Proof.
  intros Hs. exists (std s).2. split; [|split].
  - rewrite <- (reachable_std s Hs). by destruct (std s).
  - by apply (reachable_call GetStd s).
  - apply std_data.
Qed.

Lemma min_same (s1 s2 : t) :
  reachable s1 → reachable s2 → _data s1 = _data s2 →
  (min s1).1 = (min s2).1.
Proof.
  intros H1 H2 Hd. destruct (_data s1) as [|x l] eqn:Hd1.
  - unfold min. by rewrite Hd1, <- Hd.
  - rewrite !min_value; [by rewrite <- Hd, Hd1|done|by rewrite <- Hd|done|
                         by rewrite Hd1].
Qed.

Lemma max_same (s1 s2 : t) :
  reachable s1 → reachable s2 → _data s1 = _data s2 →
  (max s1).1 = (max s2).1.
Proof.
  intros H1 H2 Hd. destruct (_data s1) as [|x l] eqn:Hd1.
  - unfold max. by rewrite Hd1, <- Hd.
  - rewrite !max_value; [by rewrite <- Hd, Hd1|done|by rewrite <- Hd|done|
                         by rewrite Hd1].
Qed.

Lemma mode_same (s1 s2 : t) :
  reachable s1 → reachable s2 → _data s1 = _data s2 →
  (mode s1).1 = (mode s2).1.
Proof.
  intros H1 H2 Hd.
  destruct (mode_valid s1 (reachable_valid s1 H1)) as (He1 & Hn1 & _).
  destruct (mode_valid s2 (reachable_valid s2 H2)) as (He2 & Hn2 & _).
  destruct (_data s1) as [|x l] eqn:Hd1.
  - rewrite He1, He2; done.
  - rewrite Hn1, Hn2; [by rewrite <- Hd|by rewrite <- Hd|done].
Qed.

Lemma cv_same (s1 s2 : t) :
  reachable s1 → reachable s2 → _data s1 = _data s2 →
  (cv s1).1 = (cv s2).1.
Proof.
  intros H1 H2 Hd. unfold cv.
  destruct (std_step s1 H1) as (a1 & -> & Ha1 & Hda1).
  destruct (std_step s2 H2) as (a2 & -> & Ha2 & Hda2).
  destruct (mean_step a1 Ha1) as (b1 & -> & _ & _).
  destruct (mean_step a2 Ha2) as (b2 & -> & _ & _).
  cbn [fst]. by rewrite Hda1, Hda2, Hd.
Qed.

Lemma skewness_same (s1 s2 : t) :
  reachable s1 → reachable s2 → _data s1 = _data s2 →
  (skewness s1).1 = (skewness s2).1.
Proof.
  intros H1 H2 Hd. unfold skewness. rewrite <- Hd.
  destruct (length (_data s1) <? 3)%nat; [done|].
  destruct (mean_step s1 H1) as (a1 & -> & Ha1 & Hda1).
  destruct (mean_step s2 H2) as (a2 & -> & Ha2 & Hda2).
  destruct (std_step a1 Ha1) as (b1 & -> & _ & Hdb1).
  destruct (std_step a2 Ha2) as (b2 & -> & _ & Hdb2).
  cbn [fst]. unfold data_at.
  by rewrite Hdb1, Hdb2, Hda1, Hda2, Hd.
Qed.

Lemma kurtosis_same (s1 s2 : t) :
  reachable s1 → reachable s2 → _data s1 = _data s2 →
  (kurtosis s1).1 = (kurtosis s2).1.
Proof.
  intros H1 H2 Hd. unfold kurtosis. rewrite <- Hd.
  destruct (length (_data s1) <? 4)%nat; [done|].
  destruct (mean_step s1 H1) as (a1 & -> & Ha1 & Hda1).
  destruct (mean_step s2 H2) as (a2 & -> & Ha2 & Hda2).
  destruct (std_step a1 Ha1) as (b1 & -> & _ & Hdb1).
  destruct (std_step a2 Ha2) as (b2 & -> & _ & Hdb2).
  cbn [fst]. unfold data_at.
  by rewrite Hdb1, Hdb2, Hda1, Hda2, Hd.
Qed.

Lemma getConfidenceInterval_same (v : value) (s1 s2 : t) :
  reachable s1 → reachable s2 → _data s1 = _data s2 →
  (getConfidenceInterval v s1).1 = (getConfidenceInterval v s2).1.
Proof.
  intros H1 H2 Hd. unfold getConfidenceInterval. rewrite <- Hd.
  destruct (length (_data s1) =? 0)%nat; [done|].
  destruct (std_step s1 H1) as (a1 & -> & Ha1 & Hda1).
  destruct (std_step s2 H2) as (a2 & -> & Ha2 & Hda2).
  destruct (mean_step a1 Ha1) as (b1 & -> & _ & _).
  destruct (mean_step a2 Ha2) as (b2 & -> & _ & _).
  cbn [fst]. by rewrite Hda1, Hda2, Hd.
Qed.

(** X17: the answers depend on the sample only.  Two engines that hold
    the same sample give the same answer to every query, whatever calls
    each of them has served before: [min], [max], [mean], [std], [cv],
    [median], [mode], [skewness], [kurtosis] and the confidence interval
    of any argument. *)
Theorem answers_depend_on_sample_only (s1 s2 : t) :
  reachable s1 → reachable s2 → _data s1 = _data s2 →
  (min s1).1 = (min s2).1
  ∧ (max s1).1 = (max s2).1
  ∧ (mean s1).1 = (mean s2).1
  ∧ (std s1).1 = (std s2).1
  ∧ (cv s1).1 = (cv s2).1
  ∧ (median s1).1 = (median s2).1
  ∧ (mode s1).1 = (mode s2).1
  ∧ (skewness s1).1 = (skewness s2).1
  ∧ (kurtosis s1).1 = (kurtosis s2).1
  ∧ (∀ v, (getConfidenceInterval v s1).1 = (getConfidenceInterval v s2).1).
Proof.
  intros H1 H2 Hd.
  split; [by apply min_same|]. split; [by apply max_same|].
  split; [by rewrite !reachable_mean, Hd|].
  split; [by rewrite !reachable_std, Hd|].
  split; [by apply cv_same|].
  split; [by rewrite !reachable_median, Hd|].
  split; [by apply mode_same|].
  split; [by apply skewness_same|].
  split; [by apply kurtosis_same|].
  intros v. by apply getConfidenceInterval_same.
Qed.

Lemma answers_depend_on_sample_only_witness :
  let d := Array [3; 1; 4; 1; 5]%float in
  let s1 := set_data d constructor in
  let s2 :=
    set_data d
      (kurtosis (mode (std (set_data (Array [2; 7]%float) constructor)).2).2).2
  in
  (min s1).1 = (min s2).1
  ∧ (max s1).1 = (max s2).1
  ∧ (mean s1).1 = (mean s2).1
  ∧ (std s1).1 = (std s2).1
  ∧ (cv s1).1 = (cv s2).1
  ∧ (median s1).1 = (median s2).1
  ∧ (mode s1).1 = (mode s2).1
  ∧ (skewness s1).1 = (skewness s2).1
  ∧ (kurtosis s1).1 = (kurtosis s2).1
  ∧ (∀ v, (getConfidenceInterval v s1).1 = (getConfidenceInterval v s2).1).
Proof.
  intros d s1 s2. apply answers_depend_on_sample_only.
  - eapply (reachable_call (SetData _)); [apply reachable_new|reflexivity].
  - eapply (reachable_call (SetData _)); [|reflexivity].
    eapply (reachable_call GetKurtosis); [|reflexivity].
    eapply (reachable_call GetMode); [|reflexivity].
    eapply (reachable_call GetStd); [|reflexivity].
    eapply (reachable_call (SetData _)); [apply reachable_new|reflexivity].
  - reflexivity.
Defined.
